(** * kubebuilder-declarative-pattern: watch registry and object transforms

    A shallow embedding of the Go sources

    - [pkg/patterns/declarative] : [watchAll.Notify], [uniqueGroupVersionKind],
      [applyImageRegistry], [applyImagePullSecret],
      [applyPrivateRegistryToContainer], [transformApplication],
      [uniqueGroupKind];
    - [pkg/patterns/addon] : [TransformApplicationFromStatus].

    Conventions.  A Go [error] is an [option Err] ([None] is [nil]).  A Go
    [map[string]interface{}] is a [gmap string Value].  A Go map that is only
    ranged over is the list of its keys in insertion order, and the order in
    which [range] visits them is an explicit input (a choice sequence),
    because the language leaves it unspecified.  Pointers into
    [objects.Items] are indices into the list of items. *)

From Stdlib Require Import Ascii String.
From stdpp Require Import base strings list gmap sets fin_maps.

Open Scope string_scope.
Open Scope list_scope.

#[local] Set Warnings "-register-all,-clear-no-such-hyp".

(** ** Go library types *)

Module schema.
(** [k8s.io/apimachinery/pkg/runtime/schema.GroupVersionKind]. *)
Record GroupVersionKind : Type :=
  mk { Group : string; Version : string; Kind : string }.

(** [GroupVersionKind.String]: [Group + "/" + Version + ", Kind=" + Kind]. *)
Definition String (gvk : GroupVersionKind) : string :=
  Group gvk +:+ "/" +:+ Version gvk +:+ ", Kind=" +:+ Kind gvk.

Definition to_tuple (gvk : GroupVersionKind) : string * string * string :=
  (Group gvk, Version gvk, Kind gvk).
Definition of_tuple (t : string * string * string) : GroupVersionKind :=
  mk t.1.1 t.1.2 t.2.

#[global] Instance eq_dec : EqDecision GroupVersionKind.
Proof. solve_decision. Defined.

#[global] Instance countable : Countable GroupVersionKind.
Proof. by apply (inj_countable' to_tuple of_tuple); intros []. Defined.
End schema.

Module metav1.
(** [k8s.io/apimachinery/pkg/apis/meta/v1.GroupKind]. *)
Record GroupKind : Type := mk { Group : string; Kind : string }.

(** [GroupKind.String]: the kind alone when the group is empty, else
    [Kind + "." + Group]. *)
Definition String (gk : GroupKind) : string :=
  if decide (Group gk = "") then Kind gk else Kind gk +:+ "." +:+ Group gk.

#[global] Instance eq_dec : EqDecision GroupKind.
Proof. solve_decision. Defined.

(** [metav1.ObjectMeta], the two fields [Notify] fills in. *)
Record ObjectMeta : Type := mkMeta { Name : string; Namespace : string }.

(** [metav1.ListOptions], the field [Notify] fills in. *)
Record ListOptions : Type := mkList { LabelSelector : string }.
End metav1.

(** ** Go runtime: ranging over a map, [sort.Slice], [strings.Split] *)

Module gomap.
Section keys.
Context {K : Type} `{EqDecision K}.

(** [m[k] = struct{}{}] on a map used as a set: the keys in insertion
    order. *)
Definition insert (k : K) (keys : list K) : list K :=
  if decide (k ∈ keys) then keys else keys ++ [k].

(** [for k := range m]: every key is visited once, in an order the
    language does not fix.  The order is read off a choice sequence:
    each number selects (modulo the number of keys left) the next key. *)
Fixpoint pick (n : nat) (choices : list nat) (keys : list K) : list K :=
  match n with
  | O => []
  | S n' =>
      let i := (hd 0 choices) `mod` (length keys) in
      match keys !! i with
      | Some k => k :: pick n' (tl choices) (delete i keys)
      | None => []
      end
  end.

Definition range (choices : list nat) (keys : list K) : list K :=
  pick (length keys) choices keys.
End keys.
End gomap.

Module gosort.
Section slice.
Context {A : Type}.

(** The comparator handed to [sort.Slice] closes over the slice and
    receives two indices. *)
Definition Less : Type := list A → nat → nat → bool.

Definition swap (s : list A) (i j : nat) : list A :=
  match s !! i, s !! j with
  | Some x, Some y => <[i:=y]> (<[j:=x]> s)
  | _, _ => s
  end.

(** [for j := i; j > 0 && less(j, j-1); j-- { swap(j, j-1) }] *)
Fixpoint sink (less : Less) (s : list A) (j : nat) : list A :=
  match j with
  | O => s
  | S j' => if less s j j' then sink less (swap s j j') j' else s
  end.

(** [for i := 1; i < n; i++ { ... }] with [todo] iterations left. *)
Fixpoint passes (less : Less) (s : list A) (i todo : nat) : list A :=
  match todo with
  | O => s
  | S todo' => passes less (sink less s i) (S i) todo'
  end.

(** [sort.Slice(s, less)] on a slice of at most twelve elements, where the
    [sort] package runs the insertion sort above.  On a longer slice the
    package partitions first; that part is not embedded.  With a comparator
    that never answers [true], as the one of the source, its result is still
    a rearrangement of the order [range] gave. *)
Definition Slice (less : Less) (s : list A) : list A :=
  passes less s 1 (length s - 1).
End slice.
End gosort.

Module gostrings.
(** [strings.Split(s, sep)] for a separator of one byte: the pieces of [s]
    between the occurrences of [sep]; never an empty list. *)
Fixpoint Split (s : string) (sep : ascii) : list string :=
  match s with
  | EmptyString => [EmptyString]
  | String c s' =>
      if decide (c = sep) then EmptyString :: Split s' sep
      else match Split s' sep with
           | piece :: pieces => String c piece :: pieces
           | [] => [String c EmptyString]
           end
  end.
End gostrings.

(** ** Errors *)

(** The errors the embedded functions build with [fmt.Errorf]; wrapped errors
    keep their cause. *)
Inductive Err : Type :=
  | ErrNotCommonObject
  | ErrNotAMap (path : list string)
  | ErrNotAString (field : string)
  | ErrContainersNotFound
  | ErrContainersNotList
  | ErrContainerNotMap
  | ErrPodSpecNotFound
  | ErrPodSpecNotMap
  | ErrReadingContainerImage (cause : Err)
  | ErrApplyingPullImageSecret (cause : Err)
  | ErrApplyingPrivateRegistry (cause : Err)
  | ErrApplyingImagePullSecret (cause : Err)
  | ErrWatch (msg : string).

(** ** The manifest object model *)

(** A Go [interface{}] stored in an unstructured object: JSON values, and
    the typed values [transformApplication] stores without copying. *)
Inductive Value : Type :=
  | VNil
  | VBool (b : bool)
  | VString (s : string)
  | VSlice (items : list Value)
  | VMap (fields : gmap string Value)
  | VLabelSelector (MatchLabels : gmap string string)
  | VGroupVersionKinds (kinds : list schema.GroupVersionKind)
  | VGroupKinds (kinds : list metav1.GroupKind).

Module unstructured.
(** [unstructured.NestedFieldNoCopy(obj, fields...)]: the value under the
    path, [inl None] when a field on the way is absent, an error when the
    path runs into a value that is not a map. *)
Fixpoint NestedFieldNoCopy (obj : gmap string Value) (field : string)
    (rest : list string) (seen : list string) : option Value + Err :=
  match rest with
  | [] => inl (obj !! field)
  | next :: rest' =>
      match obj !! field with
      | None => inl None
      | Some (VMap sub) => NestedFieldNoCopy sub next rest' (seen ++ [field])
      | Some _ => inr (ErrNotAMap (seen ++ [field]))
      end
  end.

(** [unstructured.NestedString(obj, field)]: value, found, error. *)
Definition NestedString (obj : gmap string Value) (field : string)
    : string * bool * option Err :=
  match obj !! field with
  | None => ("", false, None)
  | Some (VString s) => (s, true, None)
  | Some _ => ("", false, Some (ErrNotAString field))
  end.

(** [unstructured.SetNestedField(obj, value, fields...)]: walks the path,
    creating the maps that are absent, and fails without a change when a
    field on the way holds a value that is not a map. *)
Fixpoint SetNestedField (obj : gmap string Value) (value : Value)
    (field : string) (rest : list string) (seen : list string)
    : gmap string Value + Err :=
  match rest with
  | [] => inl (<[field := value]> obj)
  | next :: rest' =>
      match obj !! field with
      | None =>
          match SetNestedField ∅ value next rest' (seen ++ [field]) with
          | inl sub' => inl (<[field := VMap sub']> obj)
          | inr e => inr e
          end
      | Some (VMap sub) =>
          match SetNestedField sub value next rest' (seen ++ [field]) with
          | inl sub' => inl (<[field := VMap sub']> obj)
          | inr e => inr e
          end
      | Some _ => inr (ErrNotAMap (seen ++ [field]))
      end
  end.

(** The paths [SetNestedField] can follow: no field on the way to the
    last one holds a value that is not a map. *)
Fixpoint settable (obj : gmap string Value) (field : string)
    (rest : list string) : bool :=
  match rest with
  | [] => true
  | next :: rest' =>
      match obj !! field with
      | None => true
      | Some (VMap sub) => settable sub next rest'
      | Some _ => false
      end
  end.

(** [unstructured.SetNestedSlice(obj, value, field)] on a path of one
    field. *)
Definition SetNestedSlice (obj : gmap string Value) (value : list Value)
    (field : string) : gmap string Value * option Err :=
  (<[field := VSlice value]> obj, None).
End unstructured.

Module manifest.
(** Modelled from the spec: [manifest.Object] and [manifest.Objects]
    (package [pkg/patterns/declarative/pkg/manifest]) are declared outside
    the embedded sources.  Section 3 gives an object its group, version,
    kind, namespace and name and "an arbitrary nested field tree
    (map-of-maps) supporting get/set by path"; an object set is ordered. *)
Record Object : Type := mkObject {
  Group : string;
  Version : string;
  Kind : string;
  Namespace : string;
  Name : string;
  object : gmap string Value
}.

Record Objects : Type := mkObjects { Items : list Object }.

(** Modelled from the spec: [Object.GroupVersionKind] and
    [Object.GroupKind], section 3: an object is "addressable by
    group/version/kind/namespace/name". *)
Definition GroupVersionKind (o : Object) : schema.GroupVersionKind :=
  schema.mk (Group o) (Version o) (Kind o).

Definition GroupKind (o : Object) : metav1.GroupKind :=
  metav1.mk (Group o) (Kind o).

(** The object with its field tree replaced. *)
Definition with_object (o : Object) (tree : gmap string Value) : Object :=
  mkObject (Group o) (Version o) (Kind o) (Namespace o) (Name o) tree.

(** Modelled from the spec: [Object.GetNestedField], section 4.1
    "[GetNestedField(path...) -> (value, found)]". *)
Definition GetNestedField (o : Object) (field : string) (rest : list string)
    : option Value :=
  match unstructured.NestedFieldNoCopy (object o) field rest [] with
  | inl v => v
  | inr _ => None
  end.

(** Modelled from the spec: [Object.SetNestedField] and
    [Object.SetNestedFieldNoCopy], section 4.1: "Field accessors must fail
    closed: setting a field through a path that collides with a non-map
    value is an error, not a silent overwrite beyond the target path."
    The two differ in Go by a deep copy of the value only. *)
Definition SetNestedField (o : Object) (value : Value) (field : string)
    (rest : list string) : Object * option Err :=
  match unstructured.SetNestedField (object o) value field rest [] with
  | inl tree => (with_object o tree, None)
  | inr e => (o, Some e)
  end.

Definition SetNestedFieldNoCopy := SetNestedField.

(** The callback of [MutateContainers] and [MutatePodSpec]: it updates the
    map it is given in place and may fail. *)
Definition Mutator : Type :=
  gmap string Value → gmap string Value * option Err.

(** The callback on each container of a list in turn, up to the first
    element that is not a map or on which the callback fails; what was
    updated before stays updated. *)
Fixpoint mutateEach (fn : Mutator) (containers : list Value)
    : list Value * option Err :=
  match containers with
  | [] => ([], None)
  | VMap c :: rest =>
      match fn c with
      | (c', Some e) => (VMap c' :: rest, Some e)
      | (c', None) =>
          let '(rest', e) := mutateEach fn rest in (VMap c' :: rest', e)
      end
  | _ :: _ => (containers, Some ErrContainerNotMap)
  end.

(** Writing back under a path that was just read. *)
Definition put (o : Object) (value : Value) (field : string)
    (rest : list string) : Object :=
  (SetNestedField o value field rest).1.

(** Modelled from the spec: [Object.MutateContainers], section 4.1
    "convenience accessors for mutating ... every container list within a
    workload-shaped object": the list under [spec.template.spec.containers],
    each container in order, stopping at the first failure. *)
Definition MutateContainers (o : Object) (fn : Mutator)
    : Object * option Err :=
  match unstructured.NestedFieldNoCopy (object o) "spec"
          ["template"; "spec"; "containers"] [] with
  | inr e => (o, Some e)
  | inl None => (o, Some ErrContainersNotFound)
  | inl (Some (VSlice containers)) =>
      let '(containers', e) := mutateEach fn containers in
      (put o (VSlice containers') "spec" ["template"; "spec"; "containers"],
       e)
  | inl (Some _) => (o, Some ErrContainersNotList)
  end.

(** Modelled from the spec: [Object.MutatePodSpec], section 4.1
    "convenience accessors for mutating every container's pod template":
    the map under [spec.template.spec]. *)
Definition MutatePodSpec (o : Object) (fn : Mutator) : Object * option Err :=
  match unstructured.NestedFieldNoCopy (object o) "spec"
          ["template"; "spec"] [] with
  | inr e => (o, Some e)
  | inl None => (o, Some ErrPodSpecNotFound)
  | inl (Some (VMap podSpec)) =>
      let '(podSpec', e) := fn podSpec in
      (put o (VMap podSpec') "spec" ["template"; "spec"], e)
  | inl (Some _) => (o, Some ErrPodSpecNotMap)
  end.
End manifest.

(** ** Owners *)

Module addonsv1alpha1.
(** Modelled from the spec: [CommonSpec], [CommonStatus] and the interface
    [CommonObject] (package [pkg/patterns/addon/pkg/apis/v1alpha1]) are
    declared outside the embedded sources.  Section 3: the owner has "a
    status sub-structure with at least a boolean/enum health indicator and
    a version string". *)
Record CommonSpec : Type := mkSpec { Version : string }.
Record CommonStatus : Type := mkStatus { Healthy : bool }.
Record CommonObject : Type :=
  mkCommon { CommonSpec_ : CommonSpec; GetCommonStatus : CommonStatus }.
End addonsv1alpha1.

(** [DeclarativeObject]: an interface value.  Its dynamic type either
    implements [addonsv1alpha1.CommonObject] or does not. *)
Inductive DeclarativeObject : Type :=
  | Addon (meta : metav1.ObjectMeta) (common : addonsv1alpha1.CommonObject)
  | Plain (meta : metav1.ObjectMeta).

Definition GetMeta (o : DeclarativeObject) : metav1.ObjectMeta :=
  match o with Addon m _ => m | Plain m => m end.
Definition GetName (o : DeclarativeObject) : string := metav1.Name (GetMeta o).
Definition GetNamespace (o : DeclarativeObject) : string :=
  metav1.Namespace (GetMeta o).

(** The type assertion [instance.(addonsv1alpha1.CommonObject)]. *)
Definition asCommonObject (o : DeclarativeObject)
    : option addonsv1alpha1.CommonObject :=
  match o with Addon _ c => Some c | Plain _ => None end.

(** [LabelMaker]: the labels of an owner. *)
Definition LabelMaker : Type := DeclarativeObject → gmap string string.

(** ** [pkg/patterns/declarative]: unique kinds *)

(** [unique[i].String()] *)
Definition string_at {A : Type} (String : A → string) (s : list A) (i : nat)
    : string :=
  match s !! i with Some x => String x | None => "" end.

(** The comparator both enumerations hand to [sort.Slice]:
    [unique[i].String() < unique[i].String()]. *)
Definition less_of {A : Type} (String : A → string) : gosort.Less (A:=A) :=
  λ unique i j,
    String.ltb (string_at String unique i) (string_at String unique i).

(** [uniqueGroupVersionKind] returns all unique GroupVersionKind defined in
    objects.  [ρ] is the order in which [range kinds] visits the map. *)
Definition uniqueGroupVersionKind (ρ : list nat) (objects : manifest.Objects)
    : list schema.GroupVersionKind :=
  let kinds :=
    foldl (λ kinds o, gomap.insert (manifest.GroupVersionKind o) kinds)
          [] (manifest.Items objects) in
  let unique := gomap.range ρ kinds in
  gosort.Slice (less_of schema.String) unique.

(** [uniqueGroupKind] returns all unique GroupKind defined in objects. *)
Definition uniqueGroupKind (ρ : list nat) (objects : manifest.Objects)
    : list metav1.GroupKind :=
  let kinds :=
    foldl (λ kinds o,
             let gk := manifest.GroupKind o in
             gomap.insert (metav1.mk (metav1.Group gk) (metav1.Kind gk)) kinds)
          [] (manifest.Items objects) in
  let unique := gomap.range ρ kinds in
  gosort.Slice (less_of metav1.String) unique.

(** ** [pkg/patterns/declarative]: the watch registry *)

(** The interface [DynamicWatch]: [Add] registers a watch for changes to
    [trigger] filtered by [options] to raise an event on [target].  The
    implementation is external; it carries its own state [D]. *)
Class DynamicWatch (D : Type) : Type :=
  Add : D → schema.GroupVersionKind → metav1.ListOptions → metav1.ObjectMeta
        → D * option Err.

Record watchAll (D : Type) : Type := mkWatchAll {
  dw : D;
  registered : gset schema.GroupVersionKind
}.
Arguments mkWatchAll {D} _ _.
Arguments dw {D} _.
Arguments registered {D} _.

(** The sink [WatchAll] installs: [&watchAll{dw, make(map[...]struct{})}]. *)
Definition newWatchAll {D : Type} (dw : D) : watchAll D := mkWatchAll dw ∅.

(** One call of [dw.Add] as [Notify] observes it: the kind and the error. *)
Definition AddCall : Type := schema.GroupVersionKind * option Err.

Section Notify.
Context {D : Type} `{!DynamicWatch D}.

(** The body of [for _, gvk := range uniqueGroupVersionKind(objs)]; the
    second component lists the calls of [dw.Add] in the order made. *)
Fixpoint notifyLoop (w : watchAll D) (filter : metav1.ListOptions)
    (notify : metav1.ObjectMeta) (kinds : list schema.GroupVersionKind)
    : watchAll D * list AddCall :=
  match kinds with
  | [] => (w, [])
  | gvk :: rest =>
      if decide (gvk ∈ registered w) then notifyLoop w filter notify rest
      else
        match Add (dw w) gvk filter notify with
        | (dw', Some err) =>
            let '(w', calls) :=
              notifyLoop (mkWatchAll dw' (registered w)) filter notify rest in
            (w', (gvk, Some err) :: calls)
        | (dw', None) =>
            let '(w', calls) :=
              notifyLoop (mkWatchAll dw' ({[gvk]} ∪ registered w))
                         filter notify rest in
            (w', (gvk, None) :: calls)
        end
  end.

Definition notifyMeta (dest : DeclarativeObject) : metav1.ObjectMeta :=
  metav1.mkMeta (GetName dest) (GetNamespace dest).

(** The label selector is built from an empty [strings.Builder]. *)
Definition notifyFilter : metav1.ListOptions := metav1.mkList "".

(** [watchAll.Notify]: the registry afterwards, the calls of [dw.Add] made,
    and the returned error. *)
Definition Notify (w : watchAll D) (dest : DeclarativeObject)
    (objs : manifest.Objects) (ρ : list nat)
    : watchAll D * list AddCall * option Err :=
  let '(w', calls) :=
    notifyLoop w notifyFilter (notifyMeta dest)
               (uniqueGroupVersionKind ρ objs) in
  (w', calls, None).

(** A reconcile tick as the registry sees it. *)
Definition Tick : Type := DeclarativeObject * manifest.Objects * list nat.

(** Successive [Notify] invocations on one registry. *)
Fixpoint NotifyAll (w : watchAll D) (ticks : list Tick)
    : watchAll D * list AddCall :=
  match ticks with
  | [] => (w, [])
  | (dest, objs, ρ) :: ticks' =>
      let '(w1, calls1, _) := Notify w dest objs ρ in
      let '(w2, calls2) := NotifyAll w1 ticks' in
      (w2, calls1 ++ calls2)
  end.

(** The watch subsystem accepts every registration. *)
Definition accepts_all : Prop :=
  ∀ (d : D) gvk options target, (Add d gvk options target).2 = None.

(** What [dw.Add] answers when called for [kinds] in turn. *)
Fixpoint replay (d : D) (filter : metav1.ListOptions)
    (notify : metav1.ObjectMeta) (kinds : list schema.GroupVersionKind)
    : D * list AddCall :=
  match kinds with
  | [] => (d, [])
  | gvk :: rest =>
      let '(d1, err) := Add d gvk filter notify in
      let '(d2, calls) := replay d1 filter notify rest in
      (d2, (gvk, err) :: calls)
  end.
End Notify.

(** ** [pkg/patterns/declarative]: the image registry transform *)

(** [applyPrivateRegistryToContainer]: the image becomes the registry, a
    slash, and the last piece of the old image split at slashes. *)
Definition applyPrivateRegistryToContainer (registry : string)
    : manifest.Mutator :=
  λ container,
    let '(image, _, err) := unstructured.NestedString container "image" in
    match err with
    | Some e => (container, Some (ErrReadingContainerImage e))
    | None =>
        let parts := gostrings.Split image "/"%char in
        let imageName := List.last parts "" in
        (<["image" := VString (registry +:+ "/" +:+ imageName)]> container,
         None)
    end.

(** [applyImagePullSecret]: one pull secret, replacing the list. *)
Definition applyImagePullSecret (secret : string) : manifest.Mutator :=
  λ podSpec,
    let imagePullSecret := VMap {["name" := VString secret]} in
    match unstructured.SetNestedSlice podSpec [imagePullSecret]
            "imagePullSecrets" with
    | (podSpec', Some e) => (podSpec', Some (ErrApplyingPullImageSecret e))
    | (podSpec', None) => (podSpec', None)
    end.

Definition isWorkload (o : manifest.Object) : bool :=
  bool_decide (manifest.Kind o = "Deployment")
  || bool_decide (manifest.Kind o = "DaemonSet")
  || bool_decide (manifest.Kind o = "StatefulSet")
  || bool_decide (manifest.Kind o = "Job")
  || bool_decide (manifest.Kind o = "CronJob").

(** The body of [for _, manifestItem := range manifest.Items]: the items as
    the loop leaves them, and the error it returns with. *)
Fixpoint applyImageRegistryItems (items : list manifest.Object)
    (registry secret : string) : list manifest.Object * option Err :=
  match items with
  | [] => ([], None)
  | manifestItem :: rest =>
      if isWorkload manifestItem then
        let '(item1, err1) :=
          if decide (registry ≠ "")
          then manifest.MutateContainers manifestItem
                 (applyPrivateRegistryToContainer registry)
          else (manifestItem, None) in
        match err1 with
        | Some e => (item1 :: rest, Some (ErrApplyingPrivateRegistry e))
        | None =>
            let '(item2, err2) :=
              if decide (secret ≠ "")
              then manifest.MutatePodSpec item1 (applyImagePullSecret secret)
              else (item1, None) in
            match err2 with
            | Some e => (item2 :: rest, Some (ErrApplyingImagePullSecret e))
            | None =>
                let '(rest', err) :=
                  applyImageRegistryItems rest registry secret in
                (item2 :: rest', err)
            end
        end
      else
        let '(rest', err) := applyImageRegistryItems rest registry secret in
        (manifestItem :: rest', err)
  end.

(** [applyImageRegistry]; the context and the owner are not used. *)
Definition applyImageRegistry (operatorObject : DeclarativeObject)
    (manifest : manifest.Objects) (registry secret : string)
    : manifest.Objects * option Err :=
  if decide (registry = "" ∧ secret = "") then (manifest, None)
  else
    let '(items, err) :=
      applyImageRegistryItems (manifest.Items manifest) registry secret in
    (manifest.mkObjects items, err).

Definition withImageRegistryTransform (privateRegistry imagePullSecret : string)
    (o : DeclarativeObject) (m : manifest.Objects)
    : manifest.Objects * option Err :=
  applyImageRegistry o m privateRegistry imagePullSecret.

(** ** Application sync *)

Definition isApplication (o : manifest.Object) : bool :=
  bool_decide (manifest.Group o = "app.k8s.io")
  && bool_decide (manifest.Kind o = "Application").

(** How the search loop of both application transforms ends: it returns
    early on a second Application, or it runs to the end with [app] either
    still [nil] or pointing at an item. *)
Inductive Search : Type :=
  | Multiple
  | Finished (app : option nat).

(** [for _, o := range objects.Items { if ... { if app != nil { return nil };
    app = o } }], with [i] the index of the head of [items]. *)
Fixpoint findApplication (items : list manifest.Object) (i : nat)
    (app : option nat) : Search :=
  match items with
  | [] => Finished app
  | o :: rest =>
      if isApplication o then
        match app with
        | Some _ => Multiple
        | None => findApplication rest (S i) (Some i)
        end
      else findApplication rest (S i) app
  end.

(** [SetNestedField] with its error dropped: the tree afterwards. *)
Definition tryset (tree : gmap string Value) (value : Value) (field : string)
    (rest : list string) : gmap string Value :=
  match unstructured.SetNestedField tree value field rest [] with
  | inl tree' => tree'
  | inr _ => tree
  end.

(** The field under a path of the item at index [i]. *)
Definition fieldAt (objects : manifest.Objects) (i : nat) (field : string)
    (rest : list string) : option Value :=
  manifest.Items objects !! i ≫= λ o, manifest.GetNestedField o field rest.

(** How many [app.k8s.io/Application] objects an object set holds. *)
Definition applications (items : list manifest.Object) : nat :=
  length (filter isApplication items).

(** A method call through the pointer [app]: the item at index [i] is
    replaced by what the method leaves; the method's error is dropped, as
    both transforms drop it. *)
Definition through (objects : manifest.Objects) (i : nat)
    (method : manifest.Object → manifest.Object * option Err)
    : manifest.Objects :=
  match manifest.Items objects !! i with
  | Some app =>
      manifest.mkObjects (<[i := (method app).1]> (manifest.Items objects))
  | None => objects
  end.

(** [transformApplication] of package [declarative]. *)
Definition transformApplication (instance : DeclarativeObject)
    (objects : manifest.Objects) (labelMaker : LabelMaker) (ρ : list nat)
    : manifest.Objects * option Err :=
  match findApplication (manifest.Items objects) 0 None with
  | Multiple => (objects, None)
  | Finished None => (objects, None)
  | Finished (Some app) =>
      let objects1 :=
        through objects app (λ o,
          manifest.SetNestedFieldNoCopy o
            (VLabelSelector (labelMaker instance)) "spec" ["selector"]) in
      let objects2 :=
        through objects1 app (λ o,
          manifest.SetNestedFieldNoCopy o
            (VGroupVersionKinds (uniqueGroupVersionKind ρ objects1))
            "spec" ["componentGroupKinds"]) in
      (objects2, None)
  end.

(** The object transform [WithManagedApplication] appends. *)
Definition WithManagedApplication (labelMaker : LabelMaker) (ρ : list nat)
    (instance : DeclarativeObject) (objects : manifest.Objects)
    : manifest.Objects * option Err :=
  transformApplication instance objects labelMaker ρ.

Module addon.
Definition Pending : string := "Pending".
Definition Succeeded : string := "Succeeded".
Definition Failed : string := "Failed".

(** [TransformApplicationFromStatus] modifies the Application in the
    deployment based off the Addons status. *)
Definition TransformApplicationFromStatus (instance : DeclarativeObject)
    (objects : manifest.Objects) : manifest.Objects * option Err :=
  match asCommonObject instance with
  | None => (objects, Some ErrNotCommonObject)
  | Some addonObject =>
      match findApplication (manifest.Items objects) 0 None with
      | Multiple => (objects, None)
      | Finished None => (objects, None)
      | Finished (Some app) =>
          let assemblyPhase :=
            if addonsv1alpha1.Healthy
                 (addonsv1alpha1.GetCommonStatus addonObject)
            then Succeeded else Pending in
          let objects1 :=
            through objects app (λ o,
              manifest.SetNestedField o
                (VString (addonsv1alpha1.Version
                            (addonsv1alpha1.CommonSpec_ addonObject)))
                "spec" ["descriptor"; "version"]) in
          let objects2 :=
            through objects1 app (λ o,
              manifest.SetNestedField o (VString assemblyPhase)
                "spec" ["assemblyPhase"]) in
          (objects2, None)
      end
  end.
End addon.

(** ** The object transform stage *)

(** [ObjectTransform] is an operation that transforms the manifest objects
    before applying it. *)
Definition ObjectTransform : Type :=
  DeclarativeObject → manifest.Objects → manifest.Objects * option Err.

(** Modelled from the spec: the loop of the reconciler over
    [objectTransformations] (the reconciler is outside the embedded
    sources).  Section 4.2, step 4: "Apply each configured object-level
    transform in registration order against the full Object Set ...
    Transform failure aborts remaining transforms and the tick". *)
Fixpoint applyTransforms (transforms : list ObjectTransform)
    (instance : DeclarativeObject) (objects : manifest.Objects)
    : manifest.Objects * option Err :=
  match transforms with
  | [] => (objects, None)
  | t :: rest =>
      match t instance objects with
      | (objects', Some e) => (objects', Some e)
      | (objects', None) => applyTransforms rest instance objects'
      end
  end.

(** The built-in object transforms of one reconcile: the image registry
    transform, then the managed application.  [ρ] is the order in which this
    run's [range] over the kinds happens to go. *)
Definition builtinTransforms (registry secret : string)
    (labelMaker : LabelMaker) (ρ : list nat) : list ObjectTransform :=
  [withImageRegistryTransform registry secret;
   WithManagedApplication labelMaker ρ].

(** ** Overlapping [Notify] invocations *)

(** [watchAll] has no lock, so two invocations on one registry can overlap.
    An invocation in progress stands at one of the three accesses of its
    loop body: the lookup [w.registered[gvk]] for the head of the kinds left,
    the call [w.dw.Add(gvk, ...)], or the store [w.registered[gvk] = ...]. *)
Inductive Invocation : Type :=
  | Checking (notify : metav1.ObjectMeta)
             (kinds : list schema.GroupVersionKind)
  | Adding (notify : metav1.ObjectMeta) (gvk : schema.GroupVersionKind)
           (rest : list schema.GroupVersionKind)
  | Storing (notify : metav1.ObjectMeta) (gvk : schema.GroupVersionKind)
            (rest : list schema.GroupVersionKind).

Definition returned (inv : Invocation) : bool :=
  match inv with Checking _ [] => true | _ => false end.

Section Interleaving.
Context {D : Type} `{!DynamicWatch D}.

(** [Notify] up to the loop. *)
Definition invoke (t : Tick) : Invocation :=
  let '(dest, objs, ρ) := t in
  Checking (notifyMeta dest) (uniqueGroupVersionKind ρ objs).

(** One access of one invocation. *)
Definition step (w : watchAll D) (inv : Invocation)
    : watchAll D * list AddCall * Invocation :=
  match inv with
  | Checking notify [] => (w, [], inv)
  | Checking notify (gvk :: rest) =>
      if decide (gvk ∈ registered w) then (w, [], Checking notify rest)
      else (w, [], Adding notify gvk rest)
  | Adding notify gvk rest =>
      match Add (dw w) gvk notifyFilter notify with
      | (dw', Some err) =>
          (mkWatchAll dw' (registered w), [(gvk, Some err)],
           Checking notify rest)
      | (dw', None) =>
          (mkWatchAll dw' (registered w), [(gvk, None)],
           Storing notify gvk rest)
      end
  | Storing notify gvk rest =>
      (mkWatchAll (dw w) ({[gvk]} ∪ registered w), [], Checking notify rest)
  end.

(** A schedule names, access by access, the invocation that goes next. *)
Fixpoint interleave (w : watchAll D) (invs : list Invocation)
    (schedule : list nat) : watchAll D * list AddCall * list Invocation :=
  match schedule with
  | [] => (w, [], invs)
  | i :: schedule' =>
      match invs !! i with
      | None => interleave w invs schedule'
      | Some inv =>
          let '(w1, calls1, inv1) := step w inv in
          let '(w2, calls2, invs2) :=
            interleave w1 (<[i := inv1]> invs) schedule' in
          (w2, calls1 ++ calls2, invs2)
      end
  end.

(** The distinct kinds the object sets of some ticks contain. *)
Definition seen (ticks : list Tick) : gset schema.GroupVersionKind :=
  list_to_set (ticks ≫= λ t, manifest.GroupVersionKind
                               <$> manifest.Items t.1.2).

(** The claim of the specification about overlapping invocations: however
    the accesses interleave, once all invocations have returned no kind
    has been handed to [dw.Add] twice, there were as many calls as
    distinct kinds seen, and the registered set has grown by exactly the
    kinds seen. *)
Definition never_double_registers (w : watchAll D) (ticks : list Tick)
    : Prop :=
  ∀ schedule w' calls invs',
    interleave w (invoke <$> ticks) schedule = (w', calls, invs') →
    forallb returned invs' = true →
    NoDup calls.*1
    ∧ length calls = size (seen ticks)
    ∧ size (registered w') = size (registered w ∪ seen ticks).
End Interleaving.

(** ** Test doubles and sample manifests *)

Module fake.
(** A watch subsystem that accepts every registration. *)
Inductive Accepting : Type := accepting.
#[global] Instance accepting_watch : DynamicWatch Accepting :=
  λ d _ _ _, (d, None).

(** A watch subsystem that refuses as many registrations as its state
    says, then accepts. *)
Inductive Refusing : Type := refusing (n : nat).
#[global] Instance refusing_watch : DynamicWatch Refusing :=
  λ d _ _ _,
    match d with
    | refusing 0 => (refusing 0, None)
    | refusing (S n) => (refusing n, Some (ErrWatch "watch refused"))
    end.
End fake.

Module sample.
Definition object (group version kind name : string)
    (tree : gmap string Value) : manifest.Object :=
  manifest.mkObject group version kind "default" name tree.

Definition A : schema.GroupVersionKind := schema.mk "apps" "v1" "Deployment".
Definition B : schema.GroupVersionKind := schema.mk "" "v1" "ConfigMap".
Definition C : schema.GroupVersionKind := schema.mk "" "v1" "Service".
Definition App : schema.GroupVersionKind :=
  schema.mk "app.k8s.io" "v1beta1" "Application".

Definition deployment : manifest.Object :=
  object "apps" "v1" "Deployment" "dashboard"
    {["spec" := VMap {["template" := VMap {["spec" := VMap
        {["containers" := VSlice
            [VMap {["name" := VString "dashboard";
                    "image" := VString "myrepo/foo/bar:v1"]}]]}]}]}]}.
Definition configmap : manifest.Object :=
  object "" "v1" "ConfigMap" "settings" ∅.
Definition service : manifest.Object :=
  object "" "v1" "Service" "dashboard" ∅.

(** An Application without a spec, and one whose spec is a string. *)
Definition application : manifest.Object :=
  object "app.k8s.io" "v1beta1" "Application" "dashboard" ∅.
Definition application_scalar_spec : manifest.Object :=
  object "app.k8s.io" "v1beta1" "Application" "dashboard"
    {["spec" := VString "none"]}.

Definition meta : metav1.ObjectMeta := metav1.mkMeta "dashboard" "kube-system".
Definition healthy : DeclarativeObject :=
  Addon meta (addonsv1alpha1.mkCommon (addonsv1alpha1.mkSpec "1.8.3")
                                      (addonsv1alpha1.mkStatus true)).
Definition unhealthy : DeclarativeObject :=
  Addon meta (addonsv1alpha1.mkCommon (addonsv1alpha1.mkSpec "1.8.3")
                                      (addonsv1alpha1.mkStatus false)).
Definition plain : DeclarativeObject := Plain meta.

Definition labels : LabelMaker := λ o, {["k8s-app" := GetName o]}.

(** The tick of the owner [name] whose manifest holds the one object [o]. *)
Definition tick (name : string) (o : manifest.Object) : Tick :=
  (Plain (metav1.mkMeta name "kube-system"), manifest.mkObjects [o], []).

(** Four owners whose manifests bring the kinds A, B, A and C. *)
Definition ticks : list Tick :=
  [tick "one" deployment; tick "two" configmap;
   tick "three" deployment; tick "four" service].
End sample.

(** ** [pkg/patterns/declarative]: [WatchAll] *)

(** The two errors [WatchAll] wraps. *)
Inductive WatchAllErr : Type :=
  | ErrCreatingDynamicWatch (cause : Err)
  | ErrSettingUpDynamicWatch (cause : Err).

(** [WatchAll] creates a Watch on ctrl for all objects reconciled by recnl.
    The externals are inputs: what [watch.NewDynamicWatch] returned, what
    [ctrl.Watch] returned, and [recnl.SetSink] of the interface [Source];
    the stop channel, which is never closed, is left out. *)
Definition WatchAll {D R : Type} (NewDynamicWatch : D + Err)
    (ctrlWatch : option Err) (SetSink : R → watchAll D → R) (recnl : R)
    : R * option WatchAllErr :=
  match NewDynamicWatch with
  | inr err => (recnl, Some (ErrCreatingDynamicWatch err))
  | inl dw =>
      match ctrlWatch with
      | Some err => (recnl, Some (ErrSettingUpDynamicWatch err))
      | None => (SetSink recnl (mkWatchAll dw ∅), None)
      end
  end.

(** The kinds [Notify] hands to [dw.Add] for one tick on a registry whose
    registered set stays [registered]. *)
Definition attempted (registered : gset schema.GroupVersionKind) (t : Tick)
    : list schema.GroupVersionKind :=
  filter (λ gvk, gvk ∉ registered) (uniqueGroupVersionKind t.2 t.1.2).

Section watch_subsystems.
Context {D : Type} `{!DynamicWatch D}.

(** The watch subsystem refuses every registration. *)
Definition refuses_all : Prop :=
  ∀ (d : D) gvk options target, (Add d gvk options target).2 ≠ None.
End watch_subsystems.

(** ** [pkg/patterns/declarative]: reconciler options *)

Module options.
Section params.
Context {ManifestController Sink Status : Type}.

(** [ManifestOperation] is an operation that transforms raw string manifests
    before applying it. *)
Definition ManifestOperation : Type :=
  DeclarativeObject → string → string * option Err.

(** [OwnerSelector] selects a runtime.Object to be the owner of a given
    manifest.Object. *)
Definition OwnerSelector : Type :=
  DeclarativeObject → manifest.Object → manifest.Objects
  → DeclarativeObject * option Err.

(** [reconcilerParams]; a [nil] pointer, interface or function is [None]. *)
Record reconcilerParams : Type := mkParams {
  rawManifestOperations : list ManifestOperation;
  groupVersionKind : option schema.GroupVersionKind;
  objectTransformations : list ObjectTransform;
  manifestController : option ManifestController;
  prune : bool;
  preserveNamespace : bool;
  sink : option Sink;
  ownerFn : option OwnerSelector;
  labelMaker : option LabelMaker;
  status : option Status
}.

Definition reconcilerOption : Type := reconcilerParams → reconcilerParams.

(** [WithRawManifestOperation] adds the specific ManifestOperations to the
    chain of manifest changes. *)
Definition WithRawManifestOperation (operations : list ManifestOperation)
    : reconcilerOption :=
  λ p, mkParams (rawManifestOperations p ++ operations) (groupVersionKind p)
         (objectTransformations p) (manifestController p) (prune p)
         (preserveNamespace p) (sink p) (ownerFn p) (labelMaker p) (status p).

(** [WithObjectTransform] adds the specified ObjectTransforms to the chain
    of manifest changes. *)
Definition WithObjectTransform (operations : list ObjectTransform)
    : reconcilerOption :=
  λ p, mkParams (rawManifestOperations p) (groupVersionKind p)
         (objectTransformations p ++ operations) (manifestController p)
         (prune p) (preserveNamespace p) (sink p) (ownerFn p) (labelMaker p)
         (status p).

(** [WithGroupVersionKind] specifies the GroupVersionKind of the managed
    custom resource. *)
Definition WithGroupVersionKind (gvk : schema.GroupVersionKind)
    : reconcilerOption :=
  λ p, mkParams (rawManifestOperations p) (Some gvk)
         (objectTransformations p) (manifestController p) (prune p)
         (preserveNamespace p) (sink p) (ownerFn p) (labelMaker p) (status p).

(** [WithManifestController] overrides the default source for loading
    manifests. *)
Definition WithManifestController (mc : ManifestController)
    : reconcilerOption :=
  λ p, mkParams (rawManifestOperations p) (groupVersionKind p)
         (objectTransformations p) (Some mc) (prune p)
         (preserveNamespace p) (sink p) (ownerFn p) (labelMaker p) (status p).

(** [WithApplyPrune] turns on the --prune behavior of kubectl apply. *)
Definition WithApplyPrune : reconcilerOption :=
  λ p, mkParams (rawManifestOperations p) (groupVersionKind p)
         (objectTransformations p) (manifestController p) true
         (preserveNamespace p) (sink p) (ownerFn p) (labelMaker p) (status p).

(** [WithOwner] sets an owner ref on each deployed object by the
    OwnerSelector. *)
Definition WithOwner (ownerFn' : OwnerSelector) : reconcilerOption :=
  λ p, mkParams (rawManifestOperations p) (groupVersionKind p)
         (objectTransformations p) (manifestController p) (prune p)
         (preserveNamespace p) (sink p) (Some ownerFn') (labelMaker p)
         (status p).

(** [WithLabels] sets a fixed set of labels configured provided by a
    LabelMaker to all deployment objecs for a given DeclarativeObject. *)
Definition WithLabels (labelMaker' : LabelMaker) : reconcilerOption :=
  λ p, mkParams (rawManifestOperations p) (groupVersionKind p)
         (objectTransformations p) (manifestController p) (prune p)
         (preserveNamespace p) (sink p) (ownerFn p) (Some labelMaker')
         (status p).

(** [WithStatus] provides a Status interface that will be used during
    Reconcile. *)
Definition WithStatus (status' : Status) : reconcilerOption :=
  λ p, mkParams (rawManifestOperations p) (groupVersionKind p)
         (objectTransformations p) (manifestController p) (prune p)
         (preserveNamespace p) (sink p) (ownerFn p) (labelMaker p)
         (Some status').

(** [WithPreserveNamespace] preserves the namespaces defined in the
    deployment manifest instead of matching the namespace of the
    DeclarativeObject. *)
Definition WithPreserveNamespace : reconcilerOption :=
  λ p, mkParams (rawManifestOperations p) (groupVersionKind p)
         (objectTransformations p) (manifestController p) (prune p)
         true (sink p) (ownerFn p) (labelMaker p) (status p).

(** [WithManagedApplication] is a transform that will modify the Application
    object in the deployment to match the configuration of the rest of the
    deployment.  [ρ] is the order the [range] of the appended closure takes
    when the closure runs. *)
Definition WithManagedApplication (labelMaker' : LabelMaker) (ρ : list nat)
    : reconcilerOption :=
  λ p, mkParams (rawManifestOperations p) (groupVersionKind p)
         (objectTransformations p
          ++ [λ instance objects,
                transformApplication instance objects labelMaker' ρ])
         (manifestController p) (prune p) (preserveNamespace p) (sink p)
         (ownerFn p) (labelMaker p) (status p).

(** A call of one of the option constructors, and the option it returns. *)
Inductive Call : Type :=
  | CallRawManifestOperation (operations : list ManifestOperation)
  | CallObjectTransform (operations : list ObjectTransform)
  | CallGroupVersionKind (gvk : schema.GroupVersionKind)
  | CallManifestController (mc : ManifestController)
  | CallApplyPrune
  | CallOwner (ownerFn' : OwnerSelector)
  | CallLabels (labelMaker' : LabelMaker)
  | CallStatus (status' : Status)
  | CallPreserveNamespace
  | CallManagedApplication (labelMaker' : LabelMaker) (ρ : list nat).

Definition option_of (c : Call) : reconcilerOption :=
  match c with
  | CallRawManifestOperation operations => WithRawManifestOperation operations
  | CallObjectTransform operations => WithObjectTransform operations
  | CallGroupVersionKind gvk => WithGroupVersionKind gvk
  | CallManifestController mc => WithManifestController mc
  | CallApplyPrune => WithApplyPrune
  | CallOwner ownerFn' => WithOwner ownerFn'
  | CallLabels labelMaker' => WithLabels labelMaker'
  | CallStatus status' => WithStatus status'
  | CallPreserveNamespace => WithPreserveNamespace
  | CallManagedApplication labelMaker' ρ => WithManagedApplication labelMaker' ρ
  end.

(** Options applied to the parameters one after another. *)
Definition apply (calls : list Call) (p : reconcilerParams)
    : reconcilerParams :=
  foldl (λ p c, option_of c p) p calls.



Definition kind_of (c : Call) : option schema.GroupVersionKind :=
  match c with CallGroupVersionKind gvk => Some gvk | _ => None end.

Definition is_prune (c : Call) : bool :=
  match c with CallApplyPrune => true | _ => false end.

Definition is_preserveNamespace (c : Call) : bool :=
  match c with CallPreserveNamespace => true | _ => false end.
End params.
End options.

(** ** Auxiliary definitions for the application transforms *)

(** The map under [spec] that a write below [spec] goes into: the empty map
    when [spec] is absent, none when [spec] holds something else. *)
Definition spec_map (tree : gmap string Value) : option (gmap string Value) :=
  match tree !! "spec" with
  | None => Some ∅
  | Some (VMap sub) => Some sub
  | Some _ => None
  end.

(** An update of the map under [spec], skipped when [spec] is no map. *)
Definition modify_spec (g : gmap string Value → gmap string Value)
    (tree : gmap string Value) : gmap string Value :=
  match spec_map tree with
  | Some sub => <["spec" := VMap (g sub)]> tree
  | None => tree
  end.

(** An update of the map under [spec] of the one Application of an object
    set; an object set that does not hold exactly one is left as it is. *)
Definition update_application (g : gmap string Value → gmap string Value)
    (objects : manifest.Objects) : manifest.Objects :=
  match findApplication (manifest.Items objects) 0 None with
  | Finished (Some app) =>
      through objects app (λ o,
        (manifest.with_object o (modify_spec g (manifest.object o)), None))
  | _ => objects
  end.

(** What [transformApplication] writes under [spec]. *)
Definition managed_fields (labels : gmap string string)
    (kinds : list schema.GroupVersionKind) (spec : gmap string Value)
    : gmap string Value :=
  <["componentGroupKinds" := VGroupVersionKinds kinds]>
    (<["selector" := VLabelSelector labels]> spec).

(** What [TransformApplicationFromStatus] writes under [spec]. *)
Definition status_fields (version assemblyPhase : string)
    (spec : gmap string Value) : gmap string Value :=
  <["assemblyPhase" := VString assemblyPhase]>
    (tryset spec (VString version) "descriptor" ["version"]).

(** The characters of a string. *)
Definition chars (s : string) : list ascii := list_ascii_of_string s.

(** More test doubles. *)
Module fake2.
(** A watch subsystem that refuses every registration. *)
Inductive Rejecting : Type := rejecting.
#[global] Instance rejecting_watch : DynamicWatch Rejecting :=
  λ d _ _ _, (d, Some (ErrWatch "watch refused")).

(** A watch subsystem that accepts every registration and keeps the
    arguments of the calls, the latest last. *)
Inductive Recording : Type :=
  recording (log : list (schema.GroupVersionKind * metav1.ListOptions
                         * metav1.ObjectMeta)).
Definition log (d : Recording) :=
  match d with recording l => l end.
#[global] Instance recording_watch : DynamicWatch Recording :=
  λ d trigger options target,
    (recording (log d ++ [(trigger, options, target)]), None).
End fake2.

(** * Properties *)

(** ** Ranging over a map and sorting with the comparator of the source *)

Section gomap_facts.
Context {K : Type} `{EqDecision K}.
Implicit Types keys : list K.

Lemma gomap_insert_elem k k' keys :
  k' ∈ gomap.insert k keys ↔ k' = k ∨ k' ∈ keys.
Proof.
  unfold gomap.insert. case_decide as Hin.
  - split; [by right | by intros [->|?]].
  - rewrite elem_of_app, list_elem_of_singleton. tauto.
Qed.

Lemma gomap_insert_NoDup k keys : NoDup keys → NoDup (gomap.insert k keys).
Proof.
  intros Hnd. unfold gomap.insert. case_decide as Hin; [done|].
  apply NoDup_app. split_and!; [done| |apply NoDup_singleton].
  intros x Hx ->%list_elem_of_singleton. done.
Qed.

Lemma gomap_pick_perm n : ∀ choices keys,
  length keys = n → gomap.pick n choices keys ≡ₚ keys.
Proof.
  induction n as [|n IH]; intros choices keys Hlen; simpl.
  - by destruct keys.
  - assert (hd 0 choices `mod` length keys < length keys) as Hlt
      by (apply Nat.mod_upper_bound; lia).
    destruct (lookup_lt_is_Some_2 keys _ Hlt) as [k Hk].
    rewrite Hk. etrans; [|symmetry; by apply delete_Permutation].
    constructor. apply IH. rewrite length_delete by eauto. lia.
Qed.

(** A [range] visits every key of the map, each once. *)
Lemma gomap_range_perm choices keys : gomap.range choices keys ≡ₚ keys.
Proof. by apply gomap_pick_perm. Qed.

(** The choice sequence of zeros visits the keys in insertion order. *)
Lemma gomap_range_nil keys : gomap.range [] keys = keys.
Proof.
  unfold gomap.range. induction keys as [|k keys IH]; [done|].
  simpl. rewrite Nat.sub_diag. simpl. by rewrite IH.
Qed.

Lemma gomap_fold_NoDup {A} (f : A → K) (items : list A) keys :
  NoDup keys → NoDup (foldl (λ ks o, gomap.insert (f o) ks) keys items).
Proof.
  revert keys. induction items as [|o items IH]; intros keys Hnd; [done|].
  simpl. apply IH. by apply gomap_insert_NoDup.
Qed.

Lemma gomap_fold_elem {A} (f : A → K) (items : list A) keys k :
  k ∈ foldl (λ ks o, gomap.insert (f o) ks) keys items
  ↔ k ∈ keys ∨ k ∈ f <$> items.
Proof.
  revert keys. induction items as [|o items IH]; intros keys; simpl.
  - rewrite elem_of_nil. tauto.
  - rewrite IH, gomap_insert_elem, elem_of_cons. tauto.
Qed.
End gomap_facts.

Section gosort_facts.
Context {A : Type}.

Lemma gosort_sink_false (less : gosort.Less (A:=A)) s j :
  (∀ i i', less s i i' = false) → gosort.sink less s j = s.
Proof. intros Hless. destruct j; simpl; [done|]. by rewrite Hless. Qed.

Lemma gosort_passes_false (less : gosort.Less (A:=A)) s todo : ∀ i,
  (∀ i i', less s i i' = false) → gosort.passes less s i todo = s.
Proof.
  induction todo as [|todo IH]; intros i Hless; simpl; [done|].
  rewrite gosort_sink_false by done. by apply IH.
Qed.

Lemma string_ltb_irrefl (x : string) : String.ltb x x = false.
Proof.
  unfold String.ltb.
  assert (String.compare x x = Eq) as ->; [|done].
  pose proof (String.compare_antisym x x) as Hanti.
  destruct (String.compare x x); simpl in Hanti; congruence.
Qed.

(** The comparator of the source compares an element with itself, so it
    never answers [true] and the sort moves nothing. *)
Lemma less_of_false (String : A → string) s i j :
  less_of String s i j = false.
Proof. apply string_ltb_irrefl. Qed.

Lemma gosort_Slice_less_of (String : A → string) s :
  gosort.Slice (less_of String) s = s.
Proof. apply gosort_passes_false. intros. apply less_of_false. Qed.
End gosort_facts.

(** [uniqueGroupVersionKind] is the map of kinds in the order [range] gave. *)
Lemma uniqueGroupVersionKind_range ρ objects :
  uniqueGroupVersionKind ρ objects
  = gomap.range ρ
      (foldl (λ kinds o, gomap.insert (manifest.GroupVersionKind o) kinds)
             [] (manifest.Items objects)).
Proof. unfold uniqueGroupVersionKind. apply gosort_Slice_less_of. Qed.

Lemma uniqueGroupVersionKind_NoDup ρ objects :
  NoDup (uniqueGroupVersionKind ρ objects).
Proof.
  rewrite uniqueGroupVersionKind_range, gomap_range_perm.
  apply gomap_fold_NoDup, NoDup_nil_2.
Qed.

Lemma uniqueGroupVersionKind_elem ρ objects gvk :
  gvk ∈ uniqueGroupVersionKind ρ objects
  ↔ gvk ∈ manifest.GroupVersionKind <$> manifest.Items objects.
Proof.
  rewrite uniqueGroupVersionKind_range, gomap_range_perm, gomap_fold_elem.
  rewrite elem_of_nil. tauto.
Qed.

Lemma uniqueGroupKind_range ρ objects :
  uniqueGroupKind ρ objects
  = gomap.range ρ
      (foldl (λ kinds o, gomap.insert (manifest.GroupKind o) kinds)
             [] (manifest.Items objects)).
Proof.
  unfold uniqueGroupKind. rewrite gosort_Slice_less_of. f_equal.
Qed.

Lemma uniqueGroupKind_NoDup ρ objects : NoDup (uniqueGroupKind ρ objects).
Proof.
  rewrite uniqueGroupKind_range, gomap_range_perm.
  apply gomap_fold_NoDup, NoDup_nil_2.
Qed.

(** ** The watch registry *)

Lemma filter_agree {A} (P Q : A → Prop) `{!∀ x, Decision (P x)}
    `{!∀ x, Decision (Q x)} (l : list A) :
  (∀ x, x ∈ l → (P x ↔ Q x)) → filter P l = filter Q l.
Proof.
  induction l as [|x l IH]; intros Hpq; [done|].
  rewrite !filter_cons.
  rewrite IH by (intros y Hy; apply Hpq; by right).
  pose proof (Hpq x ltac:(by left)) as Hx.
  destruct (decide (P x)), (decide (Q x)); tauto || done.
Qed.

Lemma fst_functional {A B} (l : list (A * B)) a b b' :
  NoDup l.*1 → (a, b) ∈ l → (a, b') ∈ l → b = b'.
Proof.
  induction l as [|[x y] l IH]; simpl; intros Hnd Hb Hb'.
  - by apply elem_of_nil in Hb.
  - apply NoDup_cons in Hnd as [Hx Hnd].
    apply elem_of_cons in Hb as [Hb|Hb], Hb' as [Hb'|Hb'];
      simplify_eq; try done.
    + exfalso. apply Hx. by apply (list_elem_of_fmap_2 fst _ (x, b')).
    + exfalso. apply Hx. by apply (list_elem_of_fmap_2 fst _ (x, b)).
    + by apply IH.
Qed.

Section Notify_facts.
Context {D : Type} `{!DynamicWatch D}.
Implicit Types (w : watchAll D) (kinds : list schema.GroupVersionKind).
Implicit Types (calls : list AddCall) (gvk : schema.GroupVersionKind).

(** What one run of the loop over distinct kinds does. *)
Lemma notifyLoop_spec filter notify kinds : ∀ w w' calls,
  NoDup kinds →
  notifyLoop w filter notify kinds = (w', calls) →
  calls.*1 = base.filter (λ gvk, gvk ∉ registered w) kinds
  ∧ (∀ gvk, gvk ∈ registered w'
            ↔ gvk ∈ registered w ∨ (gvk, None) ∈ calls)
  ∧ replay (dw w) filter notify calls.*1 = (dw w', calls).
Proof.
  induction kinds as [|k kinds IH]; intros w w' calls Hnd Hrun; simpl in Hrun.
  { simplify_eq. split_and!; [done| |done].
    intros gvk. rewrite elem_of_nil. tauto. }
  apply NoDup_cons in Hnd as [Hk Hnd].
  case_decide as Hreg.
  - destruct (IH _ _ _ Hnd Hrun) as (Hcalls & Hset & Hreplay).
    split_and!; [|done|done].
    rewrite filter_cons_False by tauto. done.
  - destruct (Add (dw w) k filter notify) as [dw' [err|]] eqn:Hadd.
    + destruct (notifyLoop _ filter notify kinds) as [w1 calls1] eqn:Hrest.
      simplify_eq.
      destruct (IH _ _ _ Hnd Hrest) as (Hcalls & Hset & Hreplay).
      csimpl in *. split_and!.
      * rewrite filter_cons_True by done. by rewrite Hcalls.
      * intros gvk. rewrite Hset, elem_of_cons.
        split; [intros [?|?]; auto|intros [?|[?|?]]; auto; done].
      * by rewrite Hadd, Hreplay.
    + destruct (notifyLoop _ filter notify kinds) as [w1 calls1] eqn:Hrest.
      simplify_eq.
      destruct (IH _ _ _ Hnd Hrest) as (Hcalls & Hset & Hreplay).
      csimpl in *. split_and!.
      * rewrite filter_cons_True by done. rewrite Hcalls. f_equal.
        apply filter_agree. intros gvk Hin.
        rewrite not_elem_of_union, not_elem_of_singleton.
        split; [tauto|]. intros ?. split; [|done]. by intros ->.
      * intros gvk. rewrite Hset, elem_of_cons, elem_of_union,
          elem_of_singleton.
        split; [intros [[->|?]|?]; auto|].
        intros [?|[?|?]]; simplify_eq; auto.
      * by rewrite Hadd, Hreplay.
Qed.

(** The registered set only grows in the loop, whatever the kinds. *)
Lemma notifyLoop_mono filter notify kinds : ∀ w,
  registered w ⊆ registered (notifyLoop w filter notify kinds).1.
Proof.
  induction kinds as [|k kinds IH]; intros w; simpl; [done|].
  case_decide as Hreg; [apply IH|].
  destruct (Add (dw w) k filter notify) as [dw' [err|]].
  - specialize (IH (mkWatchAll dw' (registered w))).
    destruct (notifyLoop _ filter notify kinds); simpl in *. done.
  - specialize (IH (mkWatchAll dw' ({[k]} ∪ registered w))).
    destruct (notifyLoop _ filter notify kinds); simpl in *. set_solver.
Qed.

Lemma Notify_mono w dest objs ρ :
  registered w ⊆ registered (Notify w dest objs ρ).1.1.
Proof.
  unfold Notify.
  pose proof (notifyLoop_mono notifyFilter (notifyMeta dest)
                (uniqueGroupVersionKind ρ objs) w) as Hmono.
  destruct (notifyLoop _ _ _ _); simpl in *. done.
Qed.

Lemma NotifyAll_mono ticks : ∀ w,
  registered w ⊆ registered (NotifyAll w ticks).1.
Proof.
  induction ticks as [|[[dest objs] ρ] ticks IH]; intros w; simpl; [done|].
  pose proof (Notify_mono w dest objs ρ) as H1.
  destruct (Notify w dest objs ρ) as [[w1 calls1] err1]; simpl in *.
  specialize (IH w1). destruct (NotifyAll w1 ticks); simpl in *.
  set_solver.
Qed.

Lemma NotifyAll_app ticks1 : ∀ w ticks2,
  (NotifyAll w (ticks1 ++ ticks2)).1
  = (NotifyAll (NotifyAll w ticks1).1 ticks2).1.
Proof.
  induction ticks1 as [|[[dest objs] ρ] ticks1 IH]; intros w ticks2; simpl.
  { by destruct (NotifyAll w ticks2). }
  destruct (Notify w dest objs ρ) as [[w1 calls1] err1].
  specialize (IH w1 ticks2).
  destruct (NotifyAll w1 (ticks1 ++ ticks2)), (NotifyAll w1 ticks1).
  simpl in *. done.
Qed.
End Notify_facts.

Section Notify_claims.
Context {D : Type} `{!DynamicWatch D}.
Implicit Types (w : watchAll D) (gvk : schema.GroupVersionKind).

(** C1.  [Notify] walks the unique kinds of the object set.  It calls
    [dw.Add] for exactly the kinds that are not yet registered, in
    enumeration order and with the answers the watch subsystem gave
    (a failed call does not stop the loop).  A kind whose call succeeded
    is registered afterwards, a kind whose call failed is not, nothing
    else changes in the registered set, and [Notify] returns [nil] whatever
    the calls answered.  A kind whose call failed is therefore handed to
    [dw.Add] again by the next [Notify] whose object set contains it. *)
Theorem Notify_registers_unregistered_kinds w dest objs ρ :
  ∃ w' calls,
    Notify w dest objs ρ = (w', calls, None)
    ∧ calls.*1 = filter (λ gvk, gvk ∉ registered w)
                        (uniqueGroupVersionKind ρ objs)
    ∧ replay (dw w) notifyFilter (notifyMeta dest) calls.*1 = (dw w', calls)
    ∧ (∀ gvk, gvk ∈ uniqueGroupVersionKind ρ objs →
              (gvk ∈ calls.*1 ↔ gvk ∉ registered w))
    ∧ (∀ gvk, (gvk, None) ∈ calls → gvk ∈ registered w')
    ∧ (∀ gvk err, (gvk, Some err) ∈ calls → gvk ∉ registered w')
    ∧ (∀ gvk, gvk ∈ registered w'
              ↔ gvk ∈ registered w ∨ (gvk, None) ∈ calls)
    ∧ (∀ gvk err dest2 objs2 ρ2,
         (gvk, Some err) ∈ calls →
         gvk ∈ uniqueGroupVersionKind ρ2 objs2 →
         gvk ∈ (Notify w' dest2 objs2 ρ2).1.2.*1).
Proof.
  unfold Notify at 1.
  destruct (notifyLoop w notifyFilter (notifyMeta dest)
              (uniqueGroupVersionKind ρ objs)) as [w' calls] eqn:Hrun.
  pose proof (uniqueGroupVersionKind_NoDup ρ objs) as Hnd.
  destruct (notifyLoop_spec _ _ _ _ _ _ Hnd Hrun) as (Hcalls & Hset & Hreplay).
  assert (∀ gvk err, (gvk, Some err) ∈ calls → gvk ∉ registered w') as Hfail.
  { intros gvk err Hin Hreg. apply Hset in Hreg as [Hreg|Hok].
    - apply (list_elem_of_fmap_2 fst) in Hin. rewrite Hcalls in Hin.
      apply list_elem_of_filter in Hin as [Hin _]. done.
    - assert (NoDup calls.*1) as Hnd'
        by (rewrite Hcalls; by apply NoDup_filter).
      by pose proof (fst_functional _ _ _ _ Hnd' Hin Hok). }
  exists w', calls. split_and!; [done|done|done| | |done|done|].
  - intros gvk Hin. rewrite Hcalls, list_elem_of_filter. tauto.
  - intros gvk Hin. apply Hset. by right.
  - intros gvk err dest2 objs2 ρ2 Hin Hin2.
    unfold Notify.
    destruct (notifyLoop w' notifyFilter (notifyMeta dest2)
                (uniqueGroupVersionKind ρ2 objs2)) as [w2 calls2] eqn:Hrun2.
    pose proof (uniqueGroupVersionKind_NoDup ρ2 objs2) as Hnd2.
    destruct (notifyLoop_spec _ _ _ _ _ _ Hnd2 Hrun2) as (Hcalls2 & _ & _).
    simpl. rewrite Hcalls2, list_elem_of_filter. split; [|done].
    by eapply Hfail.
Qed.

(** C6.  The registered set never shrinks: every [Notify] leaves each
    registered kind registered, and so does every sequence of [Notify]
    invocations and every continuation of it, whatever object sets the
    later invocations bring and whatever the watch subsystem answers. *)
Theorem registered_monotone w ticks more :
  (∀ dest objs ρ,
     registered w ⊆ registered (Notify w dest objs ρ).1.1)
  ∧ registered w ⊆ registered (NotifyAll w ticks).1
  ∧ registered (NotifyAll w ticks).1
    ⊆ registered (NotifyAll w (ticks ++ more)).1.
Proof.
  split_and!.
  - intros. apply Notify_mono.
  - apply NotifyAll_mono.
  - rewrite NotifyAll_app. apply NotifyAll_mono.
Qed.
End Notify_claims.

(** ** Nested fields *)

Section nested_fields.
Implicit Types (obj : gmap string Value) (rest seen : list string).

Lemma SetNestedField_settable value rest : ∀ obj field seen,
  unstructured.settable obj field rest = true →
  ∃ obj', unstructured.SetNestedField obj value field rest seen = inl obj'.
Proof.
  induction rest as [|next rest IH]; intros obj field seen Hok; simpl in *.
  { eauto. }
  destruct (obj !! field) as [[]|]; try done.
  - destruct (IH fields next (seen ++ [field]) Hok) as [sub' ->]. eauto.
  - destruct (IH ∅ next (seen ++ [field])) as [sub' ->]; [|eauto].
    destruct rest; [done|]. simpl. by rewrite lookup_empty.
Qed.

Lemma SetNestedField_unsettable value rest : ∀ obj field seen,
  unstructured.settable obj field rest = false →
  ∃ e, unstructured.SetNestedField obj value field rest seen = inr e.
Proof.
  induction rest as [|next rest IH]; intros obj field seen Hno; simpl in *.
  { done. }
  destruct (obj !! field) as [[]|]; try done; eauto.
  destruct (IH fields next (seen ++ [field]) Hno) as [e ->]. eauto.
Qed.

(** A field that was set reads back. *)
Lemma NestedField_SetNestedField value rest : ∀ obj obj' field seen seen',
  unstructured.SetNestedField obj value field rest seen = inl obj' →
  unstructured.NestedFieldNoCopy obj' field rest seen' = inl (Some value).
Proof.
  induction rest as [|next rest IH]; intros obj obj' field seen seen' Hset;
    simpl in *.
  { simplify_eq. by rewrite lookup_insert_eq. }
  destruct (obj !! field) as [[]|]; try done.
  - destruct (unstructured.SetNestedField fields _ _ _ _) as [sub'|] eqn:Hsub;
      [|done].
    simplify_eq. rewrite lookup_insert_eq. by eapply IH.
  - destruct (unstructured.SetNestedField ∅ _ _ _ _) as [sub'|] eqn:Hsub;
      [|done].
    simplify_eq. rewrite lookup_insert_eq. by eapply IH.
Qed.

(** After a field below [field] was set, [field] holds a map. *)
Lemma SetNestedField_head_map value obj obj' field next rest seen :
  unstructured.SetNestedField obj value field (next :: rest) seen = inl obj' →
  ∃ sub, obj' !! field = Some (VMap sub).
Proof.
  simpl. intros Hset.
  destruct (obj !! field) as [[]|]; try done;
    destruct (unstructured.SetNestedField _ _ _ _ _); simplify_eq;
    rewrite lookup_insert_eq; eauto.
Qed.

(** Setting [a.b] leaves [a.c...] alone when [b] and [c] differ. *)
Lemma NestedField_SetNestedField_sibling value obj obj' a b c rest seen seen' :
  b ≠ c →
  unstructured.SetNestedField obj value a [b] seen = inl obj' →
  unstructured.NestedFieldNoCopy obj' a (c :: rest) seen'
  = match obj !! a with
    | None => unstructured.NestedFieldNoCopy ∅ c rest (seen' ++ [a])
    | _ => unstructured.NestedFieldNoCopy obj a (c :: rest) seen'
    end.
Proof.
  intros Hbc Hset. simpl in *.
  destruct (obj !! a) as [[]|] eqn:Ha; simplify_eq; rewrite lookup_insert_eq.
  - destruct rest; simpl; by rewrite lookup_insert_ne.
  - destruct rest; simpl; by rewrite lookup_insert_ne.
Qed.
End nested_fields.

(** ** Finding the Application *)

Section findApplication_facts.
Implicit Types (items : list manifest.Object) (app : option nat).

Lemma applications_cons o items :
  applications (o :: items)
  = if isApplication o then S (applications items) else applications items.
Proof.
  unfold applications. rewrite filter_cons.
  destruct (decide (isApplication o)) as [Ho|Ho];
    destruct (isApplication o); done.
Qed.

(** With an Application already in hand the loop ends at the next one. *)
Lemma findApplication_holding items : ∀ i a,
  findApplication items i (Some a)
  = if decide (applications items = 0) then Finished (Some a) else Multiple.
Proof.
  induction items as [|o items IH]; intros i a; [done|].
  simpl. rewrite applications_cons.
  destruct (isApplication o); [done|]. apply IH.
Qed.

(** Empty-handed, the loop ends with the only Application, if there is
    exactly one. *)
Lemma findApplication_empty_handed items : ∀ i,
  match findApplication items i None with
  | Multiple => (2 ≤ applications items)%nat
  | Finished None => applications items = 0
  | Finished (Some k) =>
      applications items = 1
      ∧ ∃ j o, k = i + j ∧ items !! j = Some o ∧ isApplication o = true
  end.
Proof.
  induction items as [|o items IH]; intros i; [done|].
  simpl. rewrite applications_cons.
  destruct (isApplication o) eqn:Ho.
  - rewrite findApplication_holding. case_decide as Hz.
    + split; [lia|]. exists 0, o. split_and!; [lia|done|done].
    + lia.
  - specialize (IH (S i)).
    destruct (findApplication items (S i) None) as [|[k|]]; [done| |done].
    destruct IH as (Hone & j & o' & -> & Hj & Ho').
    split; [done|]. exists (S j), o'. split_and!; [lia|done|done].
Qed.

Lemma through_lookup objects i o method :
  manifest.Items objects !! i = Some o →
  through objects i method
  = manifest.mkObjects (<[i := (method o).1]> (manifest.Items objects)).
Proof. intros Hi. unfold through. by rewrite Hi. Qed.

(** Two method calls through the same pointer. *)
Lemma through_through objects i o method1 method2 :
  manifest.Items objects !! i = Some o →
  through (through objects i method1) i method2
  = manifest.mkObjects
      (<[i := (method2 (method1 o).1).1]> (manifest.Items objects)).
Proof.
  intros Hi. rewrite (through_lookup objects i o) by done.
  pose proof (lookup_lt_Some _ _ _ Hi) as Hlt.
  erewrite through_lookup; [|simpl; by apply list_lookup_insert_eq].
  simpl. by rewrite list_insert_insert_eq.
Qed.
End findApplication_facts.

(** ** Application sync *)

(** C10.  For an owner whose type does not implement [CommonObject],
    [TransformApplicationFromStatus] returns an error, the same whatever the
    object set holds, and leaves every object as it was. *)
Theorem TransformApplicationFromStatus_not_CommonObject instance objects :
  asCommonObject instance = None →
  addon.TransformApplicationFromStatus instance objects
  = (objects, Some ErrNotCommonObject).
Proof.
  intros Hno. unfold addon.TransformApplicationFromStatus. by rewrite Hno.
Qed.

Lemma TransformApplicationFromStatus_not_CommonObject_witness :
  asCommonObject sample.plain = None
  ∧ addon.TransformApplicationFromStatus sample.plain
      (manifest.mkObjects [sample.deployment; sample.application])
    = (manifest.mkObjects [sample.deployment; sample.application],
       Some ErrNotCommonObject).
Proof.
  split; [reflexivity|].
  apply (TransformApplicationFromStatus_not_CommonObject sample.plain).
  reflexivity.
Defined.

(** C4, as the claim states it, fails: with no Application in the object set
    and an owner that does not implement [CommonObject],
    [TransformApplicationFromStatus] returns an error, not [nil]. *)
Lemma TransformApplicationFromStatus_no_Application_error :
  applications (manifest.Items (manifest.mkObjects [sample.deployment])) ≠ 1
  ∧ (addon.TransformApplicationFromStatus sample.plain
       (manifest.mkObjects [sample.deployment])).2
    ≠ None.
Proof. split; [by vm_compute|]. by vm_compute. Qed.

(** C4, amended.  When the object set does not hold exactly one Application
    (none, or two or more), [transformApplication] changes no object and
    returns [nil]; [TransformApplicationFromStatus] changes no object and
    returns [nil] when the owner implements [CommonObject], and the error of
    its type assertion when the owner does not. *)
Theorem application_transforms_skip instance objects labelMaker ρ :
  applications (manifest.Items objects) ≠ 1 →
  transformApplication instance objects labelMaker ρ = (objects, None)
  ∧ addon.TransformApplicationFromStatus instance objects
    = (objects,
       match asCommonObject instance with
       | Some _ => None
       | None => Some ErrNotCommonObject
       end).
Proof.
  intros Hcount.
  pose proof (findApplication_empty_handed (manifest.Items objects) 0) as Hfind.
  unfold transformApplication, addon.TransformApplicationFromStatus.
  destruct (findApplication (manifest.Items objects) 0 None) as [|[k|]].
  - by destruct (asCommonObject instance).
  - by destruct Hfind.
  - by destruct (asCommonObject instance).
Qed.

Lemma application_transforms_skip_witness :
  applications
    (manifest.Items
       (manifest.mkObjects [sample.application; sample.deployment;
                            sample.application])) ≠ 1
  ∧ transformApplication sample.healthy
      (manifest.mkObjects [sample.application; sample.deployment;
                           sample.application]) sample.labels [1]
    = (manifest.mkObjects [sample.application; sample.deployment;
                           sample.application], None)
  ∧ addon.TransformApplicationFromStatus sample.healthy
      (manifest.mkObjects [sample.application; sample.deployment;
                           sample.application])
    = (manifest.mkObjects [sample.application; sample.deployment;
                           sample.application], None).
Proof.
  assert (applications
            (manifest.Items
               (manifest.mkObjects [sample.application; sample.deployment;
                                    sample.application])) ≠ 1) as Hcount
    by (by vm_compute).
  split; [exact Hcount|].
  exact (application_transforms_skip sample.healthy _ sample.labels [1] Hcount).
Defined.

(** C7, as the claim states it, fails: the object set holds exactly one
    Application, its [spec] is a string, the owner is healthy, and after
    [TransformApplicationFromStatus] the Application has no
    [spec.assemblyPhase] and no [spec.descriptor.version]: both
    [SetNestedField] calls fail, their errors are dropped, and the object is
    as before. *)
Lemma TransformApplicationFromStatus_scalar_spec :
  let objects := manifest.mkObjects [sample.application_scalar_spec] in
  applications (manifest.Items objects) = 1
  ∧ asCommonObject sample.healthy
    = Some (addonsv1alpha1.mkCommon (addonsv1alpha1.mkSpec "1.8.3")
                                    (addonsv1alpha1.mkStatus true))
  ∧ addon.TransformApplicationFromStatus sample.healthy objects
    = (objects, None)
  ∧ manifest.GetNestedField sample.application_scalar_spec
      "spec" ["assemblyPhase"] = None
  ∧ manifest.GetNestedField sample.application_scalar_spec
      "spec" ["descriptor"; "version"] = None.
Proof. by vm_compute. Qed.

Lemma GetNestedField_SetNestedField o value field rest :
  unstructured.settable (manifest.object o) field rest = true →
  manifest.GetNestedField (manifest.SetNestedField o value field rest).1
    field rest = Some value.
Proof.
  intros Hok. unfold manifest.SetNestedField, manifest.GetNestedField.
  destruct (SetNestedField_settable value rest _ field [] Hok) as [tree Hset].
  rewrite Hset. simpl.
  by rewrite (NestedField_SetNestedField _ _ _ _ _ _ [] Hset).
Qed.

(** Setting [spec.assemblyPhase] after an attempt to set
    [spec.descriptor.version]. *)
Lemma assemblyPhase_after_version o version phase :
  let o1 :=
    (manifest.SetNestedField o version "spec" ["descriptor"; "version"]).1 in
  let o2 := (manifest.SetNestedField o1 phase "spec" ["assemblyPhase"]).1 in
  (unstructured.settable (manifest.object o) "spec" ["assemblyPhase"] = true →
   manifest.GetNestedField o2 "spec" ["assemblyPhase"] = Some phase)
  ∧ (unstructured.settable (manifest.object o) "spec" ["descriptor"; "version"]
     = true →
     manifest.GetNestedField o2 "spec" ["descriptor"; "version"]
     = Some version).
Proof.
  intros o1 o2. split.
  - intros Hok. apply GetNestedField_SetNestedField.
    subst o1. unfold manifest.SetNestedField.
    destruct (unstructured.SetNestedField (manifest.object o) version "spec"
                ["descriptor"; "version"] []) as [tree|e] eqn:Hset; [|done].
    destruct (SetNestedField_head_map _ _ _ _ _ _ _ Hset) as [sub Hsub].
    simpl. by rewrite Hsub.
  - intros Hok.
    assert (manifest.GetNestedField o1 "spec" ["descriptor"; "version"]
            = Some version) as Hget1
      by (by apply GetNestedField_SetNestedField).
    assert (unstructured.settable (manifest.object o1) "spec" ["assemblyPhase"]
            = true) as Hok1.
    { unfold manifest.GetNestedField in Hget1. simpl in *.
      destruct (manifest.object o1 !! "spec") as [[]|]; done. }
    subst o2. unfold manifest.SetNestedField.
    destruct (SetNestedField_settable phase ["assemblyPhase"] _ "spec" [] Hok1)
      as [tree2 Hset2].
    rewrite Hset2. unfold manifest.GetNestedField in *. cbn [fst manifest.object
      manifest.with_object].
    rewrite (NestedField_SetNestedField_sibling phase _ _ "spec"
               "assemblyPhase" "descriptor" ["version"] [] []
               ltac:(done) Hset2).
    simpl in Hget1 |- *.
    destruct (manifest.object o1 !! "spec") as [[]|]; done.
Qed.

(** C7, amended.  For an owner that implements [CommonObject] and an object
    set that holds exactly one Application, [TransformApplicationFromStatus]
    returns [nil] and changes that one object only.  It sets the object's
    [spec.assemblyPhase] to ["Succeeded"] if the owner's [Healthy] flag is
    true and to ["Pending"] otherwise, provided the object's [spec] is absent
    or a map; and it sets [spec.descriptor.version] to the owner's version,
    provided [spec] and [spec.descriptor] are each absent or a map. *)
Theorem TransformApplicationFromStatus_sets_phase_and_version
    instance addonObject objects :
  asCommonObject instance = Some addonObject →
  applications (manifest.Items objects) = 1 →
  ∃ i app app',
    manifest.Items objects !! i = Some app
    ∧ isApplication app = true
    ∧ addon.TransformApplicationFromStatus instance objects
      = (manifest.mkObjects (<[i := app']> (manifest.Items objects)), None)
    ∧ (unstructured.settable (manifest.object app) "spec" ["assemblyPhase"]
       = true →
       manifest.GetNestedField app' "spec" ["assemblyPhase"]
       = Some (VString
                 (if addonsv1alpha1.Healthy
                       (addonsv1alpha1.GetCommonStatus addonObject)
                  then "Succeeded" else "Pending")))
    ∧ (unstructured.settable (manifest.object app) "spec"
         ["descriptor"; "version"] = true →
       manifest.GetNestedField app' "spec" ["descriptor"; "version"]
       = Some (VString (addonsv1alpha1.Version
                          (addonsv1alpha1.CommonSpec_ addonObject)))).
Proof.
  intros Hcommon Hone.
  pose proof (findApplication_empty_handed (manifest.Items objects) 0) as Hfind.
  unfold addon.TransformApplicationFromStatus. rewrite Hcommon.
  destruct (findApplication (manifest.Items objects) 0 None) as [|[k|]];
    [lia| |lia].
  destruct Hfind as (_ & j & app & -> & Hj & Happ). simpl.
  erewrite through_through by done.
  eexists j, app, _. split_and!; [done|done|reflexivity|..];
    apply assemblyPhase_after_version.
Qed.

Lemma TransformApplicationFromStatus_sets_phase_and_version_witness :
  ∃ i app app',
    manifest.Items (manifest.mkObjects [sample.deployment; sample.application])
      !! i = Some app
    ∧ isApplication app = true
    ∧ addon.TransformApplicationFromStatus sample.unhealthy
        (manifest.mkObjects [sample.deployment; sample.application])
      = (manifest.mkObjects
           (<[i := app']> [sample.deployment; sample.application]), None)
    ∧ (unstructured.settable (manifest.object app) "spec" ["assemblyPhase"]
       = true →
       manifest.GetNestedField app' "spec" ["assemblyPhase"]
       = Some (VString "Pending"))
    ∧ (unstructured.settable (manifest.object app) "spec"
         ["descriptor"; "version"] = true →
       manifest.GetNestedField app' "spec" ["descriptor"; "version"]
       = Some (VString "1.8.3")).
Proof.
  apply (TransformApplicationFromStatus_sets_phase_and_version
           sample.unhealthy
           (addonsv1alpha1.mkCommon (addonsv1alpha1.mkSpec "1.8.3")
                                    (addonsv1alpha1.mkStatus false))
           (manifest.mkObjects [sample.deployment; sample.application])).
  - reflexivity.
  - vm_compute. reflexivity.
Defined.

(** ** Successive and overlapping invocations *)

Lemma seen_cons dest objs ρ ticks :
  seen ((dest, objs, ρ) :: ticks)
  = list_to_set (manifest.GroupVersionKind <$> manifest.Items objs)
    ∪ seen ticks.
Proof. unfold seen. simpl. by rewrite list_to_set_app_L. Qed.

Section sequential.
Context {D : Type} `{!DynamicWatch D}.
Implicit Types (w : watchAll D) (gvk : schema.GroupVersionKind).

Lemma notifyLoop_accepted filter notify kinds : ∀ w,
  accepts_all →
  Forall (λ c : AddCall, c.2 = None) (notifyLoop w filter notify kinds).2.
Proof.
  intros w Hok. revert w.
  induction kinds as [|k kinds IH]; intros w; simpl; [done|].
  case_decide; [apply IH|].
  pose proof (Hok (dw w) k filter notify) as Hk.
  destruct (Add (dw w) k filter notify) as [dw' [err|]]; [done|].
  specialize (IH (mkWatchAll dw' ({[k]} ∪ registered w))).
  destruct (notifyLoop _ filter notify kinds). simpl in *.
  by constructor.
Qed.

Lemma accepted_elem (calls : list AddCall) gvk :
  Forall (λ c : AddCall, c.2 = None) calls →
  (gvk, None) ∈ calls ↔ gvk ∈ calls.*1.
Proof.
  intros Hall. split.
  - apply (list_elem_of_fmap_2 fst).
  - intros ([g e] & -> & Hin)%list_elem_of_fmap.
    rewrite Forall_forall in Hall. specialize (Hall _ Hin).
    simpl in *. by subst.
Qed.

Lemma NotifyAll_accepted ticks : ∀ w w' calls,
  accepts_all →
  NotifyAll w ticks = (w', calls) →
  Forall (λ c : AddCall, c.2 = None) calls
  ∧ NoDup calls.*1
  ∧ (∀ gvk, gvk ∈ calls.*1 ↔ gvk ∈ seen ticks ∧ gvk ∉ registered w)
  ∧ registered w' = registered w ∪ seen ticks.
Proof.
  induction ticks as [|[[dest objs] ρ] ticks IH]; intros w w' calls Hok Hrun;
    simpl in Hrun.
  { simplify_eq. split_and!; [done|apply NoDup_nil_2| |].
    - intros gvk. unfold seen. simpl.
      rewrite elem_of_nil, elem_of_empty. tauto.
    - unfold seen. simpl. by rewrite (right_id_L ∅ (∪)). }
  unfold Notify in Hrun.
  pose proof (notifyLoop_accepted notifyFilter (notifyMeta dest)
                (uniqueGroupVersionKind ρ objs) w Hok) as Hall1.
  destruct (notifyLoop w _ _ _) as [w1 calls1] eqn:Hrun1.
  destruct (NotifyAll w1 ticks) as [w2 calls2] eqn:Hrun2.
  simplify_eq. simpl in Hall1.
  pose proof (uniqueGroupVersionKind_NoDup ρ objs) as Hnd.
  destruct (notifyLoop_spec _ _ _ _ _ _ Hnd Hrun1) as (Hcalls1 & Hset1 & _).
  destruct (IH _ _ _ Hok Hrun2) as (Hall2 & Hnd2 & Hin2 & Hreg2).
  assert (∀ gvk, gvk ∈ calls1.*1
                 ↔ gvk ∈ manifest.GroupVersionKind <$> manifest.Items objs
                   ∧ gvk ∉ registered w) as Hin1.
  { intros gvk. rewrite Hcalls1, list_elem_of_filter,
      uniqueGroupVersionKind_elem. tauto. }
  assert (registered w1
          = registered w
            ∪ list_to_set (manifest.GroupVersionKind <$> manifest.Items objs))
    as Hreg1.
  { apply set_eq. intros gvk.
    rewrite Hset1, (accepted_elem _ _ Hall1), Hin1, elem_of_union,
      elem_of_list_to_set.
    destruct (decide (gvk ∈ registered w)); tauto. }
  rewrite seen_cons. split_and!.
  - by apply Forall_app.
  - rewrite fmap_app. apply NoDup_app. split_and!; [|  |done].
    + rewrite Hcalls1. by apply NoDup_filter.
    + intros gvk H1 H2. apply Hin2 in H2 as [_ H2]. apply H2.
      apply Hset1. right. by apply accepted_elem.
  - intros gvk. rewrite fmap_app, elem_of_app, Hin1, Hin2, Hreg1.
    rewrite !elem_of_union, !elem_of_list_to_set.
    destruct (decide (gvk ∈ registered w)),
      (decide (gvk ∈ manifest.GroupVersionKind <$> manifest.Items objs));
      tauto.
  - rewrite Hreg2, Hreg1. by rewrite (assoc_L (∪)).
Qed.

(** An invocation that runs alone goes through [notifyLoop]. *)
Lemma interleave_alone notify kinds : ∀ w,
  ∃ n, interleave w [Checking notify kinds] (replicate n 0)
       = ((notifyLoop w notifyFilter notify kinds).1,
          (notifyLoop w notifyFilter notify kinds).2,
          [Checking notify []]).
Proof.
  induction kinds as [|k kinds IH]; intros w.
  { by exists 0. }
  simpl notifyLoop. destruct (decide (k ∈ registered w)) as [Hreg|Hreg].
  - destruct (IH w) as [n Hn]. exists (S n). simpl.
    rewrite decide_True by done. by rewrite Hn.
  - destruct (Add (dw w) k notifyFilter notify) as [dw' [err|]] eqn:Hadd.
    + destruct (IH (mkWatchAll dw' (registered w))) as [n Hn].
      exists (S (S n)). simpl. rewrite decide_False by done. simpl.
      rewrite Hadd, Hn.
      by destruct (notifyLoop _ notifyFilter notify kinds).
    + destruct (IH (mkWatchAll dw' ({[k]} ∪ registered w))) as [n Hn].
      exists (S (S (S n))). simpl. rewrite decide_False by done. simpl.
      rewrite Hadd. simpl. rewrite Hn.
      by destruct (notifyLoop _ notifyFilter notify kinds).
Qed.
End sequential.

(** C9, as the claim states it, fails.  Four invocations, of four owners,
    present the kinds A, B, A, C to one empty registry whose watch subsystem
    accepts every registration.  In the schedule below both invocations that
    present A look A up before either stores it, so [dw.Add] is called twice
    for A: four calls, not three.  (There are four calls as well when the
    invocations run one after another and the watch subsystem refuses the
    first registration of A.) *)
Lemma overlapping_Notify_registers_twice :
  let w := newWatchAll fake.accepting in
  let schedule := [0; 2; 0; 0; 2; 2; 1; 1; 1; 3; 3; 3] in
  let w_refusing := newWatchAll (fake.refusing 1) in
  let in_turn := [0; 0; 1; 1; 1; 2; 2; 2; 3; 3; 3] in
  (interleave w (invoke <$> sample.ticks) schedule).1.2.*1
  = [sample.A; sample.A; sample.B; sample.C]
  ∧ forallb returned (interleave w (invoke <$> sample.ticks) schedule).2 = true
  ∧ ¬ never_double_registers w sample.ticks
  ∧ (interleave w_refusing (invoke <$> sample.ticks) in_turn).1.2
    = (NotifyAll w_refusing sample.ticks).2
  ∧ (NotifyAll w_refusing sample.ticks).2.*1
    = [sample.A; sample.B; sample.A; sample.C]
  ∧ ¬ never_double_registers w_refusing sample.ticks.
Proof.
  intros w schedule w_refusing in_turn.
  split_and!; [by vm_compute|by vm_compute| |by vm_compute|by vm_compute|].
  - intros Hclaim.
    specialize (Hclaim schedule
                  (interleave w (invoke <$> sample.ticks) schedule).1.1
                  (interleave w (invoke <$> sample.ticks) schedule).1.2
                  (interleave w (invoke <$> sample.ticks) schedule).2).
    destruct Hclaim as (_ & Hlen & _).
    + by destruct (interleave w (invoke <$> sample.ticks) schedule)
        as [[? ?] ?].
    + by vm_compute.
    + vm_compute in Hlen. discriminate Hlen.
  - intros Hclaim.
    specialize (Hclaim in_turn
                  (interleave w_refusing (invoke <$> sample.ticks) in_turn).1.1
                  (interleave w_refusing (invoke <$> sample.ticks) in_turn).1.2
                  (interleave w_refusing (invoke <$> sample.ticks) in_turn).2).
    destruct Hclaim as (_ & Hlen & _).
    + by destruct (interleave w_refusing (invoke <$> sample.ticks) in_turn)
        as [[? ?] ?].
    + by vm_compute.
    + vm_compute in Hlen. discriminate Hlen.
Qed.

Section sequential_claims.
Context {D : Type} `{!DynamicWatch D}.

(** C9, amended.  When the [Notify] invocations on one registry run one
    after another and the watch subsystem accepts every registration, no
    kind is handed to [dw.Add] twice: the calls are for exactly the kinds
    seen that were not registered at the start, one call each, and the
    registered set ends as the set at the start together with the kinds
    seen.  The registry has no lock: for invocations that overlap nothing
    is claimed. *)
Theorem sequential_Notify_registers_once (w : watchAll D) ticks :
  accepts_all →
  ∃ w' calls,
    NotifyAll w ticks = (w', calls)
    ∧ NoDup calls.*1
    ∧ (∀ gvk, gvk ∈ calls.*1 ↔ gvk ∈ seen ticks ∧ gvk ∉ registered w)
    ∧ length calls = size (seen ticks ∖ registered w)
    ∧ registered w' = registered w ∪ seen ticks.
Proof.
  intros Hok. destruct (NotifyAll w ticks) as [w' calls] eqn:Hrun.
  destruct (NotifyAll_accepted _ _ _ _ Hok Hrun) as (_ & Hnd & Hin & Hreg).
  exists w', calls. split_and!; [done|done|done| |done].
  assert (seen ticks ∖ registered w = list_to_set calls.*1) as ->.
  { apply set_eq. intros gvk.
    by rewrite elem_of_difference, elem_of_list_to_set, Hin. }
  rewrite size_list_to_set by done. by rewrite length_fmap.
Qed.
End sequential_claims.

Lemma sequential_Notify_registers_once_witness :
  accepts_all (D:=fake.Accepting)
  ∧ ∃ w' calls,
      NotifyAll (newWatchAll fake.accepting) sample.ticks = (w', calls)
      ∧ NoDup calls.*1
      ∧ (∀ gvk, gvk ∈ calls.*1
                ↔ gvk ∈ seen sample.ticks
                  ∧ gvk ∉ registered (newWatchAll fake.accepting))
      ∧ length calls
        = size (seen sample.ticks ∖ registered (newWatchAll fake.accepting))
      ∧ registered w'
        = registered (newWatchAll fake.accepting) ∪ seen sample.ticks.
Proof.
  assert (accepts_all (D:=fake.Accepting)) as Hok by (intros ????; reflexivity).
  split; [exact Hok|].
  exact (sequential_Notify_registers_once (newWatchAll fake.accepting) _ Hok).
Defined.

(** The four invocations of the counterexample, one after another: three
    calls, A, B and C once each, and three registered kinds. *)
Example sequential_A_B_A_C :
  let result := NotifyAll (newWatchAll fake.accepting) sample.ticks in
  result.2 = [(sample.A, None); (sample.B, None); (sample.C, None)]
  ∧ size (registered result.1) = 3.
Proof. by vm_compute. Qed.

(** A refused registration is tried again by the next invocation that
    brings the kind. *)
Example refused_then_retried :
  (NotifyAll (newWatchAll (fake.refusing 1))
     [sample.tick "one" sample.deployment;
      sample.tick "one" sample.deployment]).2
  = [(sample.A, Some (ErrWatch "watch refused")); (sample.A, None)].
Proof. by vm_compute. Qed.

(** ** The order of the unique kinds *)

(** C2.  The code at the object set [deployment; configmap].  The comparator
    compares an element with itself, so [sort.Slice] moves nothing and both
    enumerations return the kinds in the order in which [range] visited the
    map.  When [range] goes in insertion order the result is
    [apps/v1 Deployment] before [/v1 ConfigMap], although the string form of
    the second is the smaller; when [range] starts at the second key the
    result is the other way round.  The same input, two results, one of them
    unsorted; likewise for [uniqueGroupKind]. *)
Theorem unique_kinds_in_range_order :
  let objects := manifest.mkObjects [sample.deployment; sample.configmap] in
  let deployment := metav1.mk "apps" "Deployment" in
  let configmap := metav1.mk "" "ConfigMap" in
  (∀ ρ objs,
     uniqueGroupVersionKind ρ objs
     = gomap.range ρ
         (foldl (λ kinds o, gomap.insert (manifest.GroupVersionKind o) kinds)
                [] (manifest.Items objs)))
  ∧ uniqueGroupVersionKind [] objects = [sample.A; sample.B]
  ∧ uniqueGroupVersionKind [1] objects = [sample.B; sample.A]
  ∧ String.ltb (schema.String sample.B) (schema.String sample.A) = true
  ∧ uniqueGroupKind [] objects = [deployment; configmap]
  ∧ uniqueGroupKind [1] objects = [configmap; deployment]
  ∧ String.ltb (metav1.String configmap) (metav1.String deployment) = true.
Proof.
  intros objects deployment configmap.
  split; [apply uniqueGroupVersionKind_range|]. by vm_compute.
Qed.

(** With the comparator [unique[i].String() < unique[j].String()] the same
    sort does put the kinds of that object set in order. *)
Example sort_with_both_indices :
  gosort.Slice
    (λ unique i j,
       String.ltb (string_at schema.String unique i)
                  (string_at schema.String unique j))
    [sample.A; sample.App; sample.C; sample.B]
  = [sample.B; sample.C; sample.App; sample.A].
Proof. by vm_compute. Qed.

(** C3.  The code at the object set [deployment; application], owner
    [healthy].  [transformApplication] does overwrite [spec.selector] with
    the label selector of the owner's labels, but what it stores under
    [spec.componentGroupKinds] is the result of [uniqueGroupVersionKind]:
    group/version/kind tuples in [range] order, not the group/kind pairs of
    [uniqueGroupKind]. *)
Theorem transformApplication_stores_GroupVersionKinds :
  let objects := manifest.mkObjects [sample.deployment; sample.application] in
  ∃ app',
    transformApplication sample.healthy objects sample.labels []
    = (manifest.mkObjects [sample.deployment; app'], None)
    ∧ manifest.GetNestedField app' "spec" ["selector"]
      = Some (VLabelSelector (sample.labels sample.healthy))
    ∧ manifest.GetNestedField app' "spec" ["componentGroupKinds"]
      = Some (VGroupVersionKinds [sample.A; sample.App])
    ∧ ∀ ρ, manifest.GetNestedField app' "spec" ["componentGroupKinds"]
           ≠ Some (VGroupKinds (uniqueGroupKind ρ objects)).
Proof.
  intros objects. eexists. split_and!.
  - vm_compute. reflexivity.
  - by vm_compute.
  - by vm_compute.
  - intros ρ Heq. vm_compute in Heq. discriminate Heq.
Qed.

(** ** The image registry transform *)

(** C5.  [applyPrivateRegistryToContainer] replaces the image of a container
    by the registry, a slash and the last slash-separated piece of the old
    image; for the image ["myrepo/foo/bar:v1"] and the registry
    ["registry.example.com"] that is ["registry.example.com/bar:v1"], and
    [applyImageRegistry] carries it out on the container of a Deployment.
    With an empty registry and an empty secret [applyImageRegistry] returns
    the object set as it was, and [nil]. *)
Theorem applyImageRegistry_rewrite_and_noop :
  (∀ registry image container,
     applyPrivateRegistryToContainer registry
       (<["image" := VString image]> container)
     = (<["image" :=
            VString (registry +:+ "/"
                     +:+ List.last (gostrings.Split image "/"%char) "")]>
          container, None))
  ∧ (∀ container,
       applyPrivateRegistryToContainer "registry.example.com"
         (<["image" := VString "myrepo/foo/bar:v1"]> container)
       = (<["image" := VString "registry.example.com/bar:v1"]> container,
          None))
  ∧ (∃ deployment',
       applyImageRegistry sample.healthy
         (manifest.mkObjects [sample.deployment; sample.application])
         "registry.example.com" ""
       = (manifest.mkObjects [deployment'; sample.application], None)
       ∧ manifest.GetNestedField deployment' "spec"
           ["template"; "spec"; "containers"]
         = Some (VSlice
                   [VMap {["name" := VString "dashboard";
                           "image" := VString "registry.example.com/bar:v1"]}]))
  ∧ (∀ operatorObject objects,
       applyImageRegistry operatorObject objects "" "" = (objects, None)).
Proof.
  assert (∀ registry image container,
            applyPrivateRegistryToContainer registry
              (<["image" := VString image]> container)
            = (<["image" :=
                   VString (registry +:+ "/"
                            +:+ List.last (gostrings.Split image "/"%char) "")]>
                 container, None)) as Hrewrite.
  { intros registry image container.
    unfold applyPrivateRegistryToContainer, unstructured.NestedString.
    rewrite lookup_insert_eq. by rewrite insert_insert_eq. }
  split_and!.
  - exact Hrewrite.
  - intros container. by rewrite Hrewrite.
  - eexists. split; [vm_compute; reflexivity|by vm_compute].
  - intros operatorObject objects. unfold applyImageRegistry.
    by rewrite decide_True.
Qed.

(** ** Running the transforms again *)

Section Split_facts.
Variable sep : ascii.

Lemma Split_nonempty s : gostrings.Split s sep ≠ [].
Proof.
  destruct s as [|c s]; simpl; [done|].
  case_decide; [done|]. by destruct (gostrings.Split s sep).
Qed.

Lemma last_cons_nonempty {A} (x d : A) l :
  l ≠ [] → List.last (x :: l) d = List.last l d.
Proof. by destruct l. Qed.

(** The last piece of a split holds no separator: splitting it again
    gives it back. *)
Lemma Split_last_piece s :
  gostrings.Split (List.last (gostrings.Split s sep) "") sep
  = [List.last (gostrings.Split s sep) ""].
Proof.
  induction s as [|c s IH]; [done|].
  simpl. case_decide as Hc.
  - rewrite last_cons_nonempty by apply Split_nonempty. done.
  - destruct (gostrings.Split s sep) as [|piece [|piece' pieces]] eqn:Hs.
    + by apply Split_nonempty in Hs.
    + simpl in *. rewrite decide_False by done. by rewrite IH.
    + done.
Qed.

(** What stands before a separator does not matter to the last piece. *)
Lemma Split_last_after_sep a b :
  List.last (gostrings.Split (a +:+ String sep b) sep) ""
  = List.last (gostrings.Split b sep) "".
Proof.
  induction a as [|c a IH]; simpl.
  - rewrite decide_True by done.
    rewrite last_cons_nonempty by apply Split_nonempty. done.
  - case_decide as Hc.
    + rewrite last_cons_nonempty by apply Split_nonempty. done.
    + assert (2 ≤ length (gostrings.Split (a +:+ String sep b) sep))%nat
        as Hlen.
      { clear. induction a as [|c a IH]; simpl.
        - rewrite decide_True by done. simpl.
          pose proof (Split_nonempty b).
          destruct (gostrings.Split b sep); [done|simpl; lia].
        - case_decide; simpl; [lia|].
          destruct (gostrings.Split (a +:+ String sep b) sep); simpl in *;
            lia. }
      destruct (gostrings.Split (a +:+ String sep b) sep)
        as [|piece [|piece' pieces]]; simpl in *; [lia|lia|done].
Qed.
End Split_facts.

(** Rewriting the image of a container a second time changes nothing. *)
Lemma applyPrivateRegistryToContainer_again registry container container' :
  applyPrivateRegistryToContainer registry container = (container', None) →
  applyPrivateRegistryToContainer registry container' = (container', None).
Proof.
  unfold applyPrivateRegistryToContainer, unstructured.NestedString.
  intros Hfirst.
  assert (∃ image,
            container'
            = <["image" := VString
                  (registry +:+ "/"
                   +:+ List.last (gostrings.Split image "/"%char) "")]>
                container) as [image ->].
  { destruct (container !! "image") as [[]|]; simplify_eq; eauto. }
  rewrite lookup_insert_eq, insert_insert_eq.
  assert (∀ name, "/" +:+ name = String "/"%char name) as Hslash by done.
  rewrite !Hslash.
  by rewrite Split_last_after_sep, Split_last_piece.
Qed.

(** Injecting the pull secret a second time changes nothing. *)
Lemma applyImagePullSecret_again secret podSpec :
  applyImagePullSecret secret (applyImagePullSecret secret podSpec).1
  = applyImagePullSecret secret podSpec.
Proof.
  unfold applyImagePullSecret, unstructured.SetNestedSlice. simpl.
  by rewrite insert_insert_eq.
Qed.

Lemma SetNestedField_kinds o value field rest :
  manifest.GroupVersionKind (manifest.SetNestedField o value field rest).1
  = manifest.GroupVersionKind o
  ∧ isApplication (manifest.SetNestedField o value field rest).1
    = isApplication o.
Proof.
  unfold manifest.SetNestedField.
  by destruct (unstructured.SetNestedField _ _ _ _ _).
Qed.

Lemma findApplication_ext items items' : ∀ i app,
  isApplication <$> items = isApplication <$> items' →
  findApplication items i app = findApplication items' i app.
Proof.
  revert items'.
  induction items as [|o items IH]; intros [|o' items'] i app Heq;
    simplify_eq/=; [done|].
  rewrite H. destruct (isApplication o'); [destruct app|]; auto.
Qed.

Lemma uniqueGroupVersionKind_ext ρ objects objects' :
  manifest.GroupVersionKind <$> manifest.Items objects
  = manifest.GroupVersionKind <$> manifest.Items objects' →
  uniqueGroupVersionKind ρ objects = uniqueGroupVersionKind ρ objects'.
Proof.
  intros Heq. rewrite !uniqueGroupVersionKind_range.
  rewrite <-!(foldl_fmap (λ kinds k, gomap.insert k kinds) [] _
                         manifest.GroupVersionKind).
  by rewrite Heq.
Qed.

Lemma insert_pair_again (m : gmap string Value) a b va vb :
  <[b:=vb]> (<[a:=va]> (<[b:=vb]> (<[a:=va]> m))) = <[b:=vb]> (<[a:=va]> m).
Proof.
  apply map_eq. intros k.
  destruct (decide (k = b)) as [->|]; [by rewrite !lookup_insert_eq|].
  rewrite !(lookup_insert_ne _ b) by done.
  destruct (decide (k = a)) as [->|]; [by rewrite !lookup_insert_eq|].
  by rewrite !lookup_insert_ne by done.
Qed.

(** Setting two fields of [spec], errors dropped, a second time. *)
Lemma two_fields_again (tree : gmap string Value) a b va vb :
  let set2 t := tryset (tryset t va "spec" [a]) vb "spec" [b] in
  set2 (set2 tree) = set2 tree.
Proof.
  intros set2. subst set2. unfold tryset. simpl.
  destruct (tree !! "spec") as [[]|] eqn:Hspec; simpl;
    rewrite ?Hspec, ?lookup_insert_eq; simpl;
    rewrite ?Hspec, ?lookup_insert_eq; try done.
  - by rewrite !insert_insert_eq, insert_pair_again.
  - by rewrite !insert_insert_eq, insert_pair_again.
Qed.

Lemma object_SetNestedField o v field rest :
  (manifest.SetNestedField o v field rest).1
  = manifest.with_object o (tryset (manifest.object o) v field rest).
Proof.
  unfold manifest.SetNestedField, tryset.
  destruct (unstructured.SetNestedField _ _ _ _ _); [done|]. by destruct o.
Qed.

(** With the order of [range] repeated, a second [transformApplication]
    changes nothing, whatever the object set. *)
Lemma transformApplication_again instance objects labelMaker ρ :
  transformApplication instance
    (transformApplication instance objects labelMaker ρ).1 labelMaker ρ
  = transformApplication instance objects labelMaker ρ.
Proof.
  unfold transformApplication at 2 3.
  pose proof (findApplication_empty_handed (manifest.Items objects) 0) as Hfind.
  destruct (findApplication (manifest.Items objects) 0 None) as [|[i|]]
    eqn:Hsearch.
  - simpl. unfold transformApplication. by rewrite Hsearch.
  - destruct Hfind as (_ & j & app & -> & Hj & Happ). simpl in *.
    set (sel := VLabelSelector (labelMaker instance)).
    set (objects1 := through objects j _).
    assert (manifest.GroupVersionKind <$> manifest.Items objects1
            = manifest.GroupVersionKind <$> manifest.Items objects) as Hk1.
    { subst objects1. rewrite (through_lookup _ _ _ _ Hj). simpl.
      rewrite list_fmap_insert. apply list_insert_id.
      rewrite list_lookup_fmap, Hj. simpl. f_equal. symmetry.
      apply SetNestedField_kinds. }
    rewrite (uniqueGroupVersionKind_ext ρ objects1 objects Hk1).
    set (kinds := VGroupVersionKinds _).
    subst objects1. rewrite (through_through _ _ _ _ _ Hj).
    set (app2 := (manifest.SetNestedFieldNoCopy _ kinds _ _).1).
    set (objects2 := manifest.mkObjects _).
    assert (manifest.Items objects2 !! j = Some app2) as Hj2.
    { apply list_lookup_insert_eq. by eapply lookup_lt_Some. }
    unfold transformApplication.
    assert (findApplication (manifest.Items objects2) 0 None
            = Finished (Some j)) as ->.
    { rewrite <-Hsearch. apply findApplication_ext. subst objects2. simpl.
      rewrite list_fmap_insert. apply list_insert_id.
      rewrite list_lookup_fmap, Hj. simpl. f_equal. subst app2.
      unfold manifest.SetNestedFieldNoCopy.
      by rewrite !(proj2 (SetNestedField_kinds _ _ _ _)). }
    fold sel.
    set (objects3 := through objects2 j _).
    assert (manifest.GroupVersionKind <$> manifest.Items objects3
            = manifest.GroupVersionKind <$> manifest.Items objects) as Hk3.
    { subst objects3. rewrite (through_lookup _ _ _ _ Hj2).
      subst objects2. simpl.
      rewrite list_insert_insert_eq.
      rewrite list_fmap_insert. apply list_insert_id.
      rewrite list_lookup_fmap, Hj. simpl. f_equal. subst app2.
      unfold manifest.SetNestedFieldNoCopy.
      by rewrite !(proj1 (SetNestedField_kinds _ _ _ _)). }
    rewrite (uniqueGroupVersionKind_ext ρ objects3 objects Hk3). fold kinds.
    subst objects3. rewrite (through_through _ _ _ _ _ Hj2).
    subst objects2. simpl. rewrite list_insert_insert_eq.
    do 3 f_equal. subst app2. unfold manifest.SetNestedFieldNoCopy.
    rewrite !object_SetNestedField. simpl.
    f_equal.
    apply (two_fields_again (manifest.object app)
             "selector" "componentGroupKinds").
  - simpl. unfold transformApplication. by rewrite Hsearch.
Qed.

(** C8.  The code at the object set [deployment; application], owner
    [healthy], registry ["registry.example.com"], pull secret ["pull"].  Both
    runs of the built-in transforms succeed and the second leaves the
    Deployment as the first made it.  But the first run, whose [range] goes
    in insertion order, stores the kinds Deployment, Application under
    [spec.componentGroupKinds] of the Application, and a second run whose
    [range] starts at the other key stores Application, Deployment: the
    object set after two runs differs from the object set after one.  Only
    a second run whose [range] happens to repeat the order of the first
    returns the object set unchanged. *)
Theorem builtin_transforms_twice :
  let objects := manifest.mkObjects [sample.deployment; sample.application] in
  let run ρ :=
    applyTransforms
      (builtinTransforms "registry.example.com" "pull" sample.labels ρ)
      sample.healthy in
  let once := (run [] objects).1 in
  let twice := (run [1] once).1 in
  (run [] objects).2 = None
  ∧ (run [1] once).2 = None
  ∧ manifest.Items twice !! 0 = manifest.Items once !! 0
  ∧ fieldAt once 1 "spec" ["componentGroupKinds"]
    = Some (VGroupVersionKinds [sample.A; sample.App])
  ∧ fieldAt twice 1 "spec" ["componentGroupKinds"]
    = Some (VGroupVersionKinds [sample.App; sample.A])
  ∧ twice ≠ once
  ∧ (run [] once).1 = once.
Proof.
  intros objects run once twice.
  assert (fieldAt once 1 "spec" ["componentGroupKinds"]
          = Some (VGroupVersionKinds [sample.A; sample.App])) as Honce
    by (vm_compute; reflexivity).
  assert (fieldAt twice 1 "spec" ["componentGroupKinds"]
          = Some (VGroupVersionKinds [sample.App; sample.A])) as Htwice
    by (vm_compute; reflexivity).
  split_and!.
  - vm_compute; reflexivity.
  - vm_compute; reflexivity.
  - vm_compute; reflexivity.
  - exact Honce.
  - exact Htwice.
  - intros Heq. rewrite Heq, Honce in Htwice. discriminate Htwice.
  - vm_compute; reflexivity.
Qed.

(** * Further properties *)

(** ** The image registry transform, container by container *)

Section Split_pieces.
Variable sep : ascii.

Lemma Split_single_iff s :
  gostrings.Split s sep = [s] ↔ sep ∉ chars s.
Proof.
  unfold chars. induction s as [|c s IH]; simpl.
  { split; [intros _; apply not_elem_of_nil|done]. }
  rewrite not_elem_of_cons. case_decide as Hc.
  - subst c. split; [intros [=]|intros [? _]; done].
  - destruct (gostrings.Split s sep) as [|piece pieces] eqn:Hs.
    { by apply Split_nonempty in Hs. }
    split.
    + intros [= -> ->]. split; [done|]. by apply IH.
    + intros [_ Hno]. apply IH in Hno. by simplify_eq.
Qed.

Lemma Split_shape s :
  match gostrings.Split s sep with
  | [] => False
  | [piece] => s = piece
  | _ :: pieces => ∃ pre, s = pre +:+ String sep (List.last pieces "")
  end.
Proof.
  induction s as [|c s IH]; simpl; [done|].
  case_decide as Hc.
  - subst c.
    destruct (gostrings.Split s sep) as [|piece [|piece' pieces]];
      [done| |].
    + exists "". by rewrite IH.
    + destruct IH as [pre IH]. exists (String sep pre).
      change (String sep s = String sep
                (pre +:+ String sep (List.last (piece' :: pieces) ""))).
      by f_equal.
  - destruct (gostrings.Split s sep) as [|piece [|piece' pieces]];
      [done| |].
    + by f_equal.
    + destruct IH as [pre IH]. exists (String c pre).
      change (String c s = String c
                (pre +:+ String sep (List.last (piece' :: pieces) ""))).
      by f_equal.
Qed.

(** A string ends with the last piece of its split, and what stands before
    that piece, if anything, ends with the separator. *)
Lemma Split_last_suffix s :
  s = List.last (gostrings.Split s sep) ""
  ∨ ∃ pre, s = pre +:+ String sep (List.last (gostrings.Split s sep) "").
Proof.
  pose proof (Split_shape s) as Hshape.
  destruct (gostrings.Split s sep) as [|piece [|piece' pieces]];
    [done|by left|by right].
Qed.
End Split_pieces.

(** X1.  [applyPrivateRegistryToContainer] fails exactly when the container
    has an [image] field that is not a string, with the error of
    [NestedString] wrapped; a failed call leaves the container as it was.
    A container without an [image] field is not an error. *)
Theorem applyPrivateRegistryToContainer_fails_iff registry container :
  ((applyPrivateRegistryToContainer registry container).2 ≠ None
   ↔ ∃ v, container !! "image" = Some v ∧ ∀ image, v ≠ VString image)
  ∧ ((applyPrivateRegistryToContainer registry container).2 ≠ None →
     applyPrivateRegistryToContainer registry container
     = (container, Some (ErrReadingContainerImage (ErrNotAString "image")))).
Proof.
  unfold applyPrivateRegistryToContainer, unstructured.NestedString.
  destruct (container !! "image") as [v|] eqn:Himage.
  - destruct v; simpl; (split; [split|]); try done;
      try (intros _; eexists; split; [done|]; intros image [=]).
    intros (v & [= <-] & Hv). by destruct (Hv s).
  - simpl. split; [split|]; try done. by intros (v & [=] & _).
Qed.

(** X2.  When the [image] of a container is a string, or is absent (read as
    the empty string), [applyPrivateRegistryToContainer] succeeds and writes
    nothing but the [image] field.  The new image is the registry, a slash,
    and a name without a slash, and the old image is that name or ends with
    a slash followed by that name: the name is what follows the last slash
    of the old image.  An absent image becomes the registry and a slash. *)
Theorem applyPrivateRegistryToContainer_image_name registry container image :
  container !! "image" = Some (VString image)
  ∨ (container !! "image" = None ∧ image = "") →
  ∃ name,
    applyPrivateRegistryToContainer registry container
    = (<["image" := VString (registry +:+ "/" +:+ name)]> container, None)
    ∧ ("/"%char ∉ chars name)
    ∧ (image = name ∨ ∃ pre, image = pre +:+ "/" +:+ name)
    ∧ (image = "" → name = "")
    ∧ (∀ field, field ≠ "image" →
         (applyPrivateRegistryToContainer registry container).1 !! field
         = container !! field).
Proof.
  intros Himage.
  exists (List.last (gostrings.Split image "/"%char) "").
  assert (applyPrivateRegistryToContainer registry container
          = (<["image" :=
                 VString (registry +:+ "/"
                          +:+ List.last (gostrings.Split image "/"%char) "")]>
               container, None)) as Hrun.
  { unfold applyPrivateRegistryToContainer, unstructured.NestedString.
    by destruct Himage as [->|[-> ->]]. }
  split_and!.
  - exact Hrun.
  - apply Split_single_iff, Split_last_piece.
  - apply Split_last_suffix.
  - by intros ->.
  - intros field Hfield. rewrite Hrun. simpl. by rewrite lookup_insert_ne.
Qed.

Lemma applyPrivateRegistryToContainer_image_name_witness :
  ∃ name,
    applyPrivateRegistryToContainer "gcr.io/mirror"
      {["name" := VString "dashboard";
        "image" := VString "k8s.gcr.io/kubernetes-dashboard-amd64:v1.8.3"]}
    = (<["image" := VString ("gcr.io/mirror" +:+ "/" +:+ name)]>
         {["name" := VString "dashboard";
           "image" := VString "k8s.gcr.io/kubernetes-dashboard-amd64:v1.8.3"]},
       None)
    ∧ ("/"%char ∉ chars name)
    ∧ ("k8s.gcr.io/kubernetes-dashboard-amd64:v1.8.3" = name
       ∨ ∃ pre, "k8s.gcr.io/kubernetes-dashboard-amd64:v1.8.3"
                = pre +:+ "/" +:+ name)
    ∧ ("k8s.gcr.io/kubernetes-dashboard-amd64:v1.8.3" = "" → name = "")
    ∧ (∀ field, field ≠ "image" →
         (applyPrivateRegistryToContainer "gcr.io/mirror"
            {["name" := VString "dashboard";
              "image" :=
                VString "k8s.gcr.io/kubernetes-dashboard-amd64:v1.8.3"]}).1
         !! field
         = ({["name" := VString "dashboard";
              "image" :=
                VString "k8s.gcr.io/kubernetes-dashboard-amd64:v1.8.3"]}
              : gmap string Value) !! field).
Proof.
  apply (applyPrivateRegistryToContainer_image_name "gcr.io/mirror"
           {["name" := VString "dashboard";
             "image" := VString "k8s.gcr.io/kubernetes-dashboard-amd64:v1.8.3"]}
           "k8s.gcr.io/kubernetes-dashboard-amd64:v1.8.3").
  left. vm_compute. reflexivity.
Defined.

(** X3.  Of two registry rewrites in a row the second decides: rewriting for
    [registry1] and then for [registry2] gives the result, and the error, of
    rewriting for [registry2] alone.  In particular a rewrite that is
    repeated changes nothing. *)
Theorem applyPrivateRegistryToContainer_last_wins registry1 registry2 container :
  applyPrivateRegistryToContainer registry2
    (applyPrivateRegistryToContainer registry1 container).1
  = applyPrivateRegistryToContainer registry2 container.
Proof.
  unfold applyPrivateRegistryToContainer at 2, unstructured.NestedString.
  assert (∀ name, "/" +:+ name = String "/"%char name) as Hslash by done.
  assert (∀ image,
            applyPrivateRegistryToContainer registry2
              (<["image" :=
                   VString (registry1 +:+ "/"
                            +:+ List.last (gostrings.Split image "/"%char) "")]>
                 container)
            = (<["image" :=
                   VString (registry2 +:+ "/"
                            +:+ List.last (gostrings.Split image "/"%char) "")]>
                 container, None)) as Htwice.
  { intros image.
    unfold applyPrivateRegistryToContainer, unstructured.NestedString.
    rewrite lookup_insert_eq, insert_insert_eq, !Hslash.
    by rewrite Split_last_after_sep, Split_last_piece. }
  destruct (container !! "image") as [v|] eqn:Himage.
  - destruct v; simpl; try done.
    rewrite Htwice.
    unfold applyPrivateRegistryToContainer, unstructured.NestedString.
    by rewrite Himage.
  - pose proof (Htwice "") as Hempty. simpl in Hempty |- *. rewrite Hempty.
    unfold applyPrivateRegistryToContainer, unstructured.NestedString.
    by rewrite Himage.
Qed.

(** X4.  [applyImagePullSecret] never fails.  Afterwards the pod spec lists
    exactly one pull secret, the configured one, whatever it listed before;
    no other field of the pod spec is written; and of two injections in a
    row the second decides. *)
Theorem applyImagePullSecret_replaces secret podSpec :
  (applyImagePullSecret secret podSpec).2 = None
  ∧ (applyImagePullSecret secret podSpec).1 !! "imagePullSecrets"
    = Some (VSlice [VMap {["name" := VString secret]}])
  ∧ (∀ field, field ≠ "imagePullSecrets" →
       (applyImagePullSecret secret podSpec).1 !! field = podSpec !! field)
  ∧ ∀ earlier,
      applyImagePullSecret secret (applyImagePullSecret earlier podSpec).1
      = applyImagePullSecret secret podSpec.
Proof.
  unfold applyImagePullSecret, unstructured.SetNestedSlice. simpl.
  split_and!; [done|by rewrite lookup_insert_eq| |].
  - intros field Hfield. by rewrite lookup_insert_ne.
  - intros earlier. by rewrite insert_insert_eq.
Qed.

(** ** The image registry transform on an object set *)

Lemma applyImageRegistryItems_frame items registry secret :
  length (applyImageRegistryItems items registry secret).1 = length items
  ∧ (∀ i o, items !! i = Some o → isWorkload o = false →
            (applyImageRegistryItems items registry secret).1 !! i = Some o)
  ∧ (Forall (λ o, isWorkload o = false) items →
     applyImageRegistryItems items registry secret = (items, None)).
Proof.
  induction items as [|o items (IHlen & IHat & IHall)]; [done|].
  simpl. destruct (isWorkload o) eqn:Ho.
  - repeat case_match; simplify_eq/=; (split_and!;
      [by rewrite ?IHlen
      |intros [|i] o' Hi Ho'; simplify_eq/=; [congruence|];
       try done; by apply IHat
      |intros [Ho' _]%Forall_cons; congruence]).
  - destruct (applyImageRegistryItems items registry secret)
      as [items' err] eqn:Hrest. simpl in *. split_and!.
    + by rewrite IHlen.
    + intros [|i] o' Hi Ho'; simplify_eq/=; [done|by apply IHat].
    + intros [_ Hall]%Forall_cons. specialize (IHall Hall). by simplify_eq.
Qed.

(** X5.  Whatever registry and secret are configured, and whether it
    succeeds or not, [applyImageRegistry] returns as many objects as it was
    given, in the same order, and every object whose kind is not Deployment,
    DaemonSet, StatefulSet, Job or CronJob exactly as it was.  On an object
    set without such a kind it changes nothing and returns [nil]. *)
Theorem applyImageRegistry_frame operatorObject objects registry secret :
  length (manifest.Items
            (applyImageRegistry operatorObject objects registry secret).1)
  = length (manifest.Items objects)
  ∧ (∀ i o, manifest.Items objects !! i = Some o → isWorkload o = false →
            manifest.Items
              (applyImageRegistry operatorObject objects registry secret).1
            !! i = Some o)
  ∧ (Forall (λ o, isWorkload o = false) (manifest.Items objects) →
     applyImageRegistry operatorObject objects registry secret
     = (objects, None)).
Proof.
  unfold applyImageRegistry. case_decide as Hempty; [done|].
  destruct (applyImageRegistryItems_frame (manifest.Items objects)
              registry secret) as (Hlen & Hat & Hall).
  destruct (applyImageRegistryItems (manifest.Items objects) registry secret)
    as [items err] eqn:Hrun. simpl in *. split_and!; [done|done|].
  intros Hno. specialize (Hall Hno). simplify_eq. by destruct objects.
Qed.

(** ** The unique kinds of an object set *)

Lemma uniqueGroupKind_elem ρ objects gk :
  gk ∈ uniqueGroupKind ρ objects
  ↔ gk ∈ manifest.GroupKind <$> manifest.Items objects.
Proof.
  rewrite uniqueGroupKind_range, gomap_range_perm, gomap_fold_elem.
  rewrite elem_of_nil. tauto.
Qed.

Lemma NoDup_covered_length {A B} (f : A → B) (l : list B) (k : list A) :
  NoDup l → (∀ y, y ∈ l → y ∈ f <$> k) → (length l ≤ length k)%nat.
Proof.
  intros Hnd Hin. rewrite <-(length_fmap f k).
  by apply submseteq_length, NoDup_submseteq.
Qed.

(** X6.  In whatever order [range] visits the map, [uniqueGroupVersionKind]
    returns every group/version/kind that some object of the set has, each
    once, and nothing else; so at most as many kinds as objects, and none
    exactly when the object set is empty. *)
Theorem uniqueGroupVersionKind_exact ρ objects :
  NoDup (uniqueGroupVersionKind ρ objects)
  ∧ (∀ gvk, gvk ∈ uniqueGroupVersionKind ρ objects
            ↔ ∃ o, o ∈ manifest.Items objects
                   ∧ manifest.GroupVersionKind o = gvk)
  ∧ (length (uniqueGroupVersionKind ρ objects)
     ≤ length (manifest.Items objects))%nat
  ∧ (uniqueGroupVersionKind ρ objects = [] ↔ manifest.Items objects = []).
Proof.
  pose proof (uniqueGroupVersionKind_NoDup ρ objects) as Hnd.
  assert (∀ gvk, gvk ∈ uniqueGroupVersionKind ρ objects
                 ↔ ∃ o, o ∈ manifest.Items objects
                        ∧ manifest.GroupVersionKind o = gvk) as Hin.
  { intros gvk. rewrite uniqueGroupVersionKind_elem, list_elem_of_fmap.
    naive_solver. }
  split_and!; [done|done| |].
  - apply (NoDup_covered_length manifest.GroupVersionKind); [done|].
    intros gvk. by rewrite uniqueGroupVersionKind_elem.
  - split.
    + intros Hnil. destruct (manifest.Items objects) as [|o items] eqn:Hitems;
        [done|].
      assert (manifest.GroupVersionKind o ∈ uniqueGroupVersionKind ρ objects)
        as Ho by (apply Hin; exists o; split; [by left|done]).
      rewrite Hnil in Ho. by apply elem_of_nil in Ho.
    + intros Hnil. destruct objects as [items]. simpl in Hnil. by subst.
Qed.

(** X7.  The order of the result is all that the order of [range] and the
    order and multiplicity of the objects can change: two object sets that
    hold the same kinds give the same kinds, in some order, for any two
    runs. *)
Theorem uniqueGroupVersionKind_order_only ρ1 ρ2 objects1 objects2 :
  (∀ gvk, gvk ∈ manifest.GroupVersionKind <$> manifest.Items objects1
          ↔ gvk ∈ manifest.GroupVersionKind <$> manifest.Items objects2) →
  uniqueGroupVersionKind ρ1 objects1 ≡ₚ uniqueGroupVersionKind ρ2 objects2.
Proof.
  intros Hsame.
  apply NoDup_Permutation; [apply uniqueGroupVersionKind_NoDup..|].
  intros gvk. by rewrite !uniqueGroupVersionKind_elem.
Qed.

Lemma uniqueGroupVersionKind_order_only_witness :
  uniqueGroupVersionKind [0; 1]
    (manifest.mkObjects [sample.deployment; sample.service;
                         sample.deployment])
  ≡ₚ uniqueGroupVersionKind [1]
       (manifest.mkObjects [sample.service; sample.deployment]).
Proof.
  apply (uniqueGroupVersionKind_order_only [0; 1] [1]
           (manifest.mkObjects [sample.deployment; sample.service;
                                sample.deployment])
           (manifest.mkObjects [sample.service; sample.deployment])).
  intros gvk. simpl. rewrite !elem_of_cons, !elem_of_nil. tauto.
Defined.

(** X8.  [uniqueGroupKind] returns every group/kind that some object of the
    set has, each once.  These are the group/kind pairs of the kinds that
    [uniqueGroupVersionKind] returns, with the versions of one group/kind
    merged, so there are at most as many of them. *)
Theorem uniqueGroupKind_exact ρ ρ' objects :
  NoDup (uniqueGroupKind ρ objects)
  ∧ (∀ gk, gk ∈ uniqueGroupKind ρ objects
           ↔ ∃ o, o ∈ manifest.Items objects ∧ manifest.GroupKind o = gk)
  ∧ (∀ gk, gk ∈ uniqueGroupKind ρ objects
           ↔ ∃ gvk, gvk ∈ uniqueGroupVersionKind ρ' objects
                    ∧ metav1.mk (schema.Group gvk) (schema.Kind gvk) = gk)
  ∧ (length (uniqueGroupKind ρ objects)
     ≤ length (uniqueGroupVersionKind ρ' objects))%nat.
Proof.
  pose proof (uniqueGroupKind_NoDup ρ objects) as Hnd.
  assert (∀ gk, gk ∈ uniqueGroupKind ρ objects
                ↔ ∃ gvk, gvk ∈ uniqueGroupVersionKind ρ' objects
                         ∧ metav1.mk (schema.Group gvk) (schema.Kind gvk) = gk)
    as Hgvk.
  { intros gk. rewrite uniqueGroupKind_elem, list_elem_of_fmap. split.
    - intros (o & -> & Ho). exists (manifest.GroupVersionKind o).
      split; [|done]. apply uniqueGroupVersionKind_elem.
      by apply list_elem_of_fmap_2.
    - intros (gvk & Hin & <-).
      apply uniqueGroupVersionKind_elem, list_elem_of_fmap in Hin
        as (o & -> & Ho).
      by exists o. }
  split_and!; [done| |done|].
  - intros gk. rewrite uniqueGroupKind_elem, list_elem_of_fmap. naive_solver.
  - apply (NoDup_covered_length
             (λ gvk, metav1.mk (schema.Group gvk) (schema.Kind gvk)));
      [done|].
    intros gk (gvk & Hin & <-)%Hgvk.
    by apply (list_elem_of_fmap_2
                (λ gvk, metav1.mk (schema.Group gvk) (schema.Kind gvk))).
Qed.

(** ** More on the watch registry *)

Section Notify_general.
Context {D : Type} `{!DynamicWatch D}.
Implicit Types (w : watchAll D) (gvk : schema.GroupVersionKind).

Lemma notifyLoop_quiet filter notify kinds w :
  Forall (λ gvk, gvk ∈ registered w) kinds →
  notifyLoop w filter notify kinds = (w, []).
Proof.
  induction 1 as [|gvk kinds Hreg _ IH]; simpl; [done|].
  by rewrite decide_True.
Qed.

Lemma NotifyAll_general ticks : ∀ w w' calls,
  NotifyAll w ticks = (w', calls) →
  (∀ gvk, gvk ∈ registered w' ↔ gvk ∈ registered w ∨ (gvk, None) ∈ calls)
  ∧ (∀ gvk, gvk ∈ calls.*1 → gvk ∈ seen ticks ∧ gvk ∉ registered w)
  ∧ (∀ pre post gvk,
       calls = pre ++ (gvk, None) :: post → gvk ∉ post.*1).
Proof.
  induction ticks as [|[[dest objs] ρ] ticks IH]; intros w w' calls Hrun;
    simpl in Hrun.
  { simplify_eq. split_and!.
    - intros gvk. rewrite elem_of_nil. tauto.
    - intros gvk Hin. by apply elem_of_nil in Hin.
    - intros [|??] ???; done. }
  unfold Notify in Hrun.
  destruct (notifyLoop w _ _ _) as [w1 calls1] eqn:Hrun1.
  destruct (NotifyAll w1 ticks) as [w2 calls2] eqn:Hrun2.
  simplify_eq.
  pose proof (uniqueGroupVersionKind_NoDup ρ objs) as Hnd.
  destruct (notifyLoop_spec _ _ _ _ _ _ Hnd Hrun1) as (Hcalls1 & Hset1 & _).
  destruct (IH _ _ _ Hrun2) as (Hset2 & Hin2 & Hafter2).
  assert (NoDup calls1.*1) as Hnd1 by (rewrite Hcalls1; by apply NoDup_filter).
  split_and!.
  - intros gvk. rewrite Hset2, Hset1, elem_of_app. tauto.
  - intros gvk. rewrite fmap_app, elem_of_app, seen_cons, elem_of_union,
      elem_of_list_to_set. intros [Hin|Hin].
    + rewrite Hcalls1 in Hin. apply list_elem_of_filter in Hin as [Hno Hin].
      apply uniqueGroupVersionKind_elem in Hin. tauto.
    + apply Hin2 in Hin as [Hseen Hno]. split; [tauto|].
      intros Hreg. apply Hno, Hset1. by left.
  - intros pre post gvk Heq.
    apply app_eq_inv in Heq as [(k & Hc1 & Hk)|(k & Hpre & Hc2)].
    + destruct k as [|c k]; simpl in Hk.
      * eapply (Hafter2 []). by rewrite <-Hk.
      * simplify_eq. rewrite fmap_app, not_elem_of_app. split.
        -- rewrite fmap_app, fmap_cons in Hnd1.
           apply NoDup_app in Hnd1 as (_ & _ & Hnd1).
           by apply NoDup_cons in Hnd1 as [? _].
        -- intros Hin. apply Hin2 in Hin as [_ Hno]. apply Hno, Hset1.
           right. apply elem_of_app. right. by left.
    + by eapply Hafter2.
Qed.

(** X9.  Over any sequence of [Notify] invocations and whatever the watch
    subsystem answers: [dw.Add] is only ever called for a kind that some
    object set of the sequence holds and that was not registered at the
    start, the registered set gains no kind that no object set holds, and
    one [Notify] makes at most as many calls as its object set has
    objects. *)
Theorem Notify_stays_within_the_object_sets w ticks :
  (∀ gvk, gvk ∈ (NotifyAll w ticks).2.*1 →
          gvk ∈ seen ticks ∧ gvk ∉ registered w)
  ∧ registered (NotifyAll w ticks).1 ⊆ registered w ∪ seen ticks
  ∧ ∀ dest objs ρ,
      (length (Notify w dest objs ρ).1.2 ≤ length (manifest.Items objs))%nat.
Proof.
  destruct (NotifyAll w ticks) as [w' calls] eqn:Hrun.
  destruct (NotifyAll_general _ _ _ _ Hrun) as (Hset & Hin & _).
  simpl. split_and!; [done| |].
  - intros gvk [Hreg|Hok]%Hset; apply elem_of_union; [by left|right].
    by apply (Hin gvk), (list_elem_of_fmap_2 fst _ (gvk, None)).
  - intros dest objs ρ. unfold Notify.
    destruct (notifyLoop w _ _ _) as [w1 calls1] eqn:Hrun1. simpl.
    pose proof (uniqueGroupVersionKind_NoDup ρ objs) as Hnd.
    destruct (notifyLoop_spec _ _ _ _ _ _ Hnd Hrun1) as (Hcalls1 & _ & _).
    trans (length calls1.*1); [by rewrite length_fmap|]. rewrite Hcalls1.
    etrans; [apply length_filter|].
    apply (NoDup_covered_length manifest.GroupVersionKind); [done|].
    intros gvk. by rewrite uniqueGroupVersionKind_elem.
Qed.

(** X10.  In a sequence of [Notify] invocations that run one after another,
    once [dw.Add] has succeeded for a kind it is not called for that kind
    again, whatever the other calls answer.  (Before it succeeds it may be
    called any number of times.) *)
Theorem no_Add_after_success w ticks pre post gvk :
  (NotifyAll w ticks).2 = pre ++ (gvk, None) :: post →
  gvk ∉ post.*1.
Proof.
  destruct (NotifyAll w ticks) as [w' calls] eqn:Hrun.
  destruct (NotifyAll_general _ _ _ _ Hrun) as (_ & _ & Hafter).
  simpl. apply Hafter.
Qed.

(** X11.  After a [Notify] all of whose calls of [dw.Add] succeeded, a
    [Notify] with the same object set, or with any object set that holds no
    further kind, calls nothing and leaves the registry and the watch
    subsystem exactly as they are; and so for another owner as for the
    same. *)
Theorem Notify_again_is_quiet w dest objs ρ dest' objs' ρ' :
  Forall (λ c : AddCall, c.2 = None) (Notify w dest objs ρ).1.2 →
  (∀ gvk, gvk ∈ manifest.GroupVersionKind <$> manifest.Items objs' →
          gvk ∈ manifest.GroupVersionKind <$> manifest.Items objs) →
  Notify (Notify w dest objs ρ).1.1 dest' objs' ρ'
  = ((Notify w dest objs ρ).1.1, [], None).
Proof.
  pose proof (eq_refl (Notify w dest objs ρ)) as Hfirst.
  unfold Notify at 2 in Hfirst.
  destruct (notifyLoop w _ _ (uniqueGroupVersionKind ρ objs))
    as [w1 calls1] eqn:Hrun1.
  rewrite Hfirst. simpl. intros Hall Hsub.
  pose proof (uniqueGroupVersionKind_NoDup ρ objs) as Hnd.
  destruct (notifyLoop_spec _ _ _ _ _ _ Hnd Hrun1) as (Hcalls1 & Hset1 & _).
  unfold Notify. rewrite notifyLoop_quiet; [done|].
  apply Forall_forall. intros gvk Hin%uniqueGroupVersionKind_elem%Hsub.
  apply Hset1. destruct (decide (gvk ∈ registered w)) as [|Hno]; [by left|].
  right. apply accepted_elem; [done|]. rewrite Hcalls1.
  apply list_elem_of_filter. split; [done|].
  by apply uniqueGroupVersionKind_elem.
Qed.

Lemma notifyLoop_refused filter notify kinds : ∀ w,
  refuses_all →
  registered (notifyLoop w filter notify kinds).1 = registered w
  ∧ (notifyLoop w filter notify kinds).2.*1
    = base.filter (λ gvk, gvk ∉ registered w) kinds
  ∧ Forall (λ c : AddCall, c.2 ≠ None) (notifyLoop w filter notify kinds).2.
Proof.
  intros w Hno. revert w.
  induction kinds as [|k kinds IH]; intros w; simpl; [done|].
  case_decide as Hreg.
  - rewrite filter_cons_False by tauto. apply IH.
  - rewrite filter_cons_True by done.
    pose proof (Hno (dw w) k filter notify) as Hk.
    destruct (Add (dw w) k filter notify) as [dw' [err|]]; [|done].
    destruct (IH (mkWatchAll dw' (registered w))) as (IHreg & IHcalls & IHall).
    destruct (notifyLoop _ filter notify kinds) as [w1 calls1].
    csimpl in *. split_and!; [done|by rewrite IHcalls|by constructor].
Qed.

(** X12.  While the watch subsystem refuses every registration, the
    registered set stays as it is and nothing is given up: every [Notify]
    calls [dw.Add] again for every kind of its object set that is not
    registered. *)
Theorem refused_kinds_are_retried_every_tick w ticks :
  refuses_all →
  registered (NotifyAll w ticks).1 = registered w
  ∧ (NotifyAll w ticks).2.*1 = ticks ≫= attempted (registered w)
  ∧ Forall (λ c : AddCall, c.2 ≠ None) (NotifyAll w ticks).2.
Proof.
  intros Hno. revert w.
  induction ticks as [|[[dest objs] ρ] ticks IH]; intros w; simpl; [done|].
  unfold Notify.
  destruct (notifyLoop_refused notifyFilter (notifyMeta dest)
              (uniqueGroupVersionKind ρ objs) w Hno) as (Hreg1 & Hcalls1 & Hall1).
  destruct (notifyLoop w _ _ _) as [w1 calls1].
  destruct (IH w1) as (Hreg2 & Hcalls2 & Hall2).
  destruct (NotifyAll w1 ticks) as [w2 calls2].
  simpl in *. split_and!.
  - by rewrite Hreg2.
  - rewrite fmap_app, Hcalls1, Hcalls2. unfold attempted at 2. simpl.
    by rewrite Hreg1.
  - by apply Forall_app.
Qed.
End Notify_general.

Lemma no_Add_after_success_witness :
  (NotifyAll (newWatchAll (fake.refusing 1))
     [sample.tick "one" sample.deployment; sample.tick "two" sample.deployment;
      sample.tick "three" sample.deployment]).2
  = [(sample.A, Some (ErrWatch "watch refused"))] ++ (sample.A, None) :: []
  ∧ sample.A ∉ ([] : list AddCall).*1.
Proof.
  assert ((NotifyAll (newWatchAll (fake.refusing 1))
             [sample.tick "one" sample.deployment;
              sample.tick "two" sample.deployment;
              sample.tick "three" sample.deployment]).2
          = [(sample.A, Some (ErrWatch "watch refused"))]
            ++ (sample.A, None) :: []) as Hcalls by (vm_compute; reflexivity).
  split; [exact Hcalls|].
  exact (no_Add_after_success _ _ _ _ _ Hcalls).
Defined.

Lemma Notify_again_is_quiet_witness :
  Forall (λ c : AddCall, c.2 = None)
    (Notify (newWatchAll fake.accepting) sample.healthy
       (manifest.mkObjects [sample.deployment; sample.service]) []).1.2
  ∧ Notify
      (Notify (newWatchAll fake.accepting) sample.healthy
         (manifest.mkObjects [sample.deployment; sample.service]) []).1.1
      sample.plain (manifest.mkObjects [sample.service]) [1]
    = ((Notify (newWatchAll fake.accepting) sample.healthy
          (manifest.mkObjects [sample.deployment; sample.service]) []).1.1,
       [], None).
Proof.
  assert (Forall (λ c : AddCall, c.2 = None)
            (Notify (newWatchAll fake.accepting) sample.healthy
               (manifest.mkObjects [sample.deployment; sample.service])
               []).1.2) as Hall.
  { vm_compute. repeat constructor. }
  split; [exact Hall|].
  apply (Notify_again_is_quiet (newWatchAll fake.accepting) sample.healthy
           (manifest.mkObjects [sample.deployment; sample.service]) []
           sample.plain (manifest.mkObjects [sample.service]) [1] Hall).
  intros gvk. simpl. rewrite !elem_of_cons, !elem_of_nil. tauto.
Defined.

Lemma refused_kinds_are_retried_every_tick_witness :
  refuses_all (D:=fake2.Rejecting)
  ∧ registered (NotifyAll (newWatchAll fake2.rejecting) sample.ticks).1
    = registered (newWatchAll fake2.rejecting)
  ∧ (NotifyAll (newWatchAll fake2.rejecting) sample.ticks).2.*1
    = sample.ticks ≫= attempted (registered (newWatchAll fake2.rejecting))
  ∧ Forall (λ c : AddCall, c.2 ≠ None)
      (NotifyAll (newWatchAll fake2.rejecting) sample.ticks).2.
Proof.
  assert (refuses_all (D:=fake2.Rejecting)) as Hno by (intros ????; done).
  split; [exact Hno|].
  exact (refused_kinds_are_retried_every_tick
           (newWatchAll fake2.rejecting) sample.ticks Hno).
Defined.

(** ** Which owner a watch is registered for *)

Lemma recording_replay filter notify kinds : ∀ d : fake2.Recording,
  replay d filter notify kinds
  = (fake2.recording
       (fake2.log d ++ ((λ gvk, (gvk, filter, notify)) <$> kinds)),
     (λ gvk, (gvk, None)) <$> kinds).
Proof.
  induction kinds as [|k kinds IH]; intros d; simpl.
  { rewrite (right_id_L [] (++)). by destruct d. }
  rewrite IH. simpl. by rewrite <-(assoc_L (++)).
Qed.

Lemma recording_accepts_all : accepts_all (D:=fake2.Recording).
Proof. by intros ????. Qed.

Lemma recording_Notify (w : watchAll fake2.Recording) dest objs ρ w' calls :
  Notify w dest objs ρ = (w', calls, None) →
  fake2.log (dw w')
  = fake2.log (dw w)
    ++ ((λ gvk, (gvk, notifyFilter, notifyMeta dest))
          <$> attempted (registered w) (dest, objs, ρ))
  ∧ registered w'
    = registered w
      ∪ list_to_set (manifest.GroupVersionKind <$> manifest.Items objs).
Proof.
  intros Hrun.
  assert (NotifyAll w [(dest, objs, ρ)] = (w', calls ++ [])) as Hall
    by (simpl; by rewrite Hrun).
  destruct (NotifyAll_accepted _ _ _ _ recording_accepts_all Hall)
    as (_ & _ & _ & Hreg).
  rewrite seen_cons in Hreg. unfold seen in Hreg. simpl in Hreg.
  rewrite (right_id_L ∅ (∪)) in Hreg. split; [|done].
  unfold Notify in Hrun.
  destruct (notifyLoop w _ _ _) as [w1 calls1] eqn:Hloop. simplify_eq.
  pose proof (uniqueGroupVersionKind_NoDup ρ objs) as Hnd.
  destruct (notifyLoop_spec _ _ _ _ _ _ Hnd Hloop) as (Hcalls & _ & Hreplay).
  rewrite recording_replay in Hreplay.
  apply (f_equal fst) in Hreplay. simpl in Hreplay.
  rewrite <-Hreplay. simpl. by rewrite Hcalls.
Qed.

(** The entries a sequence of ticks adds to the log of the recording watch
    subsystem. *)
Lemma recording_NotifyAll ticks : ∀ (w w' : watchAll fake2.Recording) calls,
  NotifyAll w ticks = (w', calls) →
  (∀ gvk options target,
     (gvk, options, target) ∈ fake2.log (dw w')
     ↔ (gvk, options, target) ∈ fake2.log (dw w)
       ∨ (options = metav1.mkList ""
          ∧ (gvk ∉ registered w)
          ∧ ∃ before dest objs ρ after,
              ticks = before ++ (dest, objs, ρ) :: after
              ∧ target = metav1.mkMeta (GetName dest) (GetNamespace dest)
              ∧ gvk ∈ manifest.GroupVersionKind <$> manifest.Items objs
              ∧ (gvk ∉ seen before)))
  ∧ (λ e, e.1.1) <$> fake2.log (dw w')
    = ((λ e, e.1.1) <$> fake2.log (dw w)) ++ calls.*1.
Proof.
  induction ticks as [|[[dest objs] ρ] ticks IH]; intros w w' calls Hrun;
    simpl in Hrun.
  { simplify_eq. split; [|simpl; by rewrite app_nil_r].
    intros gvk options target. split; [by left|].
    intros [?|(_ & _ & [|??] & ? & ? & ? & ? & ? & _)]; done. }
  destruct (Notify w dest objs ρ) as [[w1 calls1] err1] eqn:Hrun1.
  destruct (NotifyAll w1 ticks) as [w2 calls2] eqn:Hrun2. simplify_eq.
  assert (err1 = None) as -> by
    (unfold Notify in Hrun1; destruct (notifyLoop w _ _ _); by simplify_eq).
  destruct (recording_Notify _ _ _ _ _ _ Hrun1) as (Hlog1 & Hreg1).
  destruct (IH _ _ _ Hrun2) as (IHlog & IHkinds).
  assert (calls1.*1 = attempted (registered w) (dest, objs, ρ)) as Hcalls1.
  { unfold Notify in Hrun1.
    destruct (notifyLoop w _ _ _) as [w0 calls0] eqn:Hloop. simplify_eq.
    pose proof (uniqueGroupVersionKind_NoDup ρ objs) as Hnd.
    by destruct (notifyLoop_spec _ _ _ _ _ _ Hnd Hloop) as (-> & _ & _). }
  split.
  - intros gvk options target.
    rewrite IHlog, Hlog1, elem_of_app, list_elem_of_fmap, Hreg1.
    unfold attempted. simpl.
    setoid_rewrite list_elem_of_filter.
    setoid_rewrite uniqueGroupVersionKind_elem.
    rewrite not_elem_of_union, elem_of_list_to_set.
    split.
    + intros [[Hold|(g & [= -> -> ->] & Hno & Hin)]|Hlater].
      * by left.
      * right. split; [done|]. split; [done|].
        exists [], dest, objs, ρ, ticks.
        split; [done|]. split; [done|]. split; [done|].
        unfold seen. simpl. apply not_elem_of_empty.
      * destruct Hlater
          as (-> & [Hno Hnot] & before & d & o & r & after & -> & -> & Hin
              & Hbefore).
        right. split; [done|]. split; [done|].
        exists ((dest, objs, ρ) :: before), d, o, r, after.
        split; [done|]. split; [done|]. split; [done|].
        rewrite seen_cons, not_elem_of_union, elem_of_list_to_set. done.
    + intros [Hold|(-> & Hno & before & d & o & r & after & Hticks & -> & Hin
                    & Hbefore)].
      * by left; left.
      * destruct before as [|b before]; simplify_eq/=.
        -- left; right. exists gvk. done.
        -- right. rewrite seen_cons, not_elem_of_union, elem_of_list_to_set
             in Hbefore. destruct Hbefore as [Hnot Hbefore].
           split; [done|]. split; [done|].
           by exists before, d, o, r, after.
  - rewrite IHkinds, Hlog1, !fmap_app, <-(assoc_L (++)). f_equal. f_equal.
    rewrite <-list_fmap_compose. simpl. rewrite Hcalls1.
    by rewrite list_fmap_id.
Qed.

(** X13.  With a watch subsystem that accepts every registration, started
    on an empty registry: every registration is made with the empty label
    selector, and the target it names is the name and namespace of the owner
    of the first [Notify] whose object set held the kind.  Each kind seen is
    registered once; an owner that brings a kind another owner brought
    before is named in no registration for that kind. *)
Theorem watch_target_is_the_first_owner ticks gvk options target :
  NoDup ((λ e, e.1.1)
           <$> fake2.log
                 (dw (NotifyAll (newWatchAll (fake2.recording [])) ticks).1))
  ∧ ((gvk, options, target)
       ∈ fake2.log
           (dw (NotifyAll (newWatchAll (fake2.recording [])) ticks).1)
     ↔ options = metav1.mkList ""
       ∧ ∃ before dest objs ρ after,
           ticks = before ++ (dest, objs, ρ) :: after
           ∧ target = metav1.mkMeta (GetName dest) (GetNamespace dest)
           ∧ gvk ∈ manifest.GroupVersionKind <$> manifest.Items objs
           ∧ (gvk ∉ seen before)).
Proof.
  destruct (NotifyAll (newWatchAll (fake2.recording [])) ticks)
    as [w' calls] eqn:Hrun.
  destruct (recording_NotifyAll _ _ _ _ Hrun) as (Hlog & Hkinds).
  destruct (NotifyAll_accepted _ _ _ _ recording_accepts_all Hrun)
    as (_ & Hnd & _ & _).
  simpl in *. split; [by rewrite Hkinds|].
  rewrite Hlog. split.
  - intros [[]%elem_of_nil|(? & _ & ?)]. done.
  - intros (? & ?). right. split_and!; [done|apply not_elem_of_empty|done].
Qed.

(** Two owners bring a Deployment each: the one registration names the
    first. *)
Example second_owner_gets_no_watch :
  fake2.log
    (dw (NotifyAll (newWatchAll (fake2.recording []))
           [sample.tick "one" sample.deployment;
            sample.tick "two" sample.deployment]).1)
  = [(sample.A, metav1.mkList "", metav1.mkMeta "one" "kube-system")].
Proof. by vm_compute. Qed.

(** ** [WatchAll] *)

(** X14.  [WatchAll] installs a sink only when both the creation of the
    dynamic watch and [ctrl.Watch] succeeded; otherwise it returns the
    wrapped error of the first of the two that failed and leaves the
    reconciler as it was.  The sink it installs starts with an empty
    registry, so the first [Notify] through it calls [dw.Add] for every
    kind of its object set, each once. *)
Theorem WatchAll_installs_an_empty_registry {D R : Type} `{!DynamicWatch D}
    (NewDynamicWatch : D + Err) (ctrlWatch : option Err)
    (SetSink : R → watchAll D → R) (recnl : R) :
  match NewDynamicWatch, ctrlWatch with
  | inr err, _ =>
      WatchAll NewDynamicWatch ctrlWatch SetSink recnl
      = (recnl, Some (ErrCreatingDynamicWatch err))
  | inl _, Some err =>
      WatchAll NewDynamicWatch ctrlWatch SetSink recnl
      = (recnl, Some (ErrSettingUpDynamicWatch err))
  | inl d, None =>
      ∃ sink,
        WatchAll NewDynamicWatch ctrlWatch SetSink recnl
        = (SetSink recnl sink, None)
        ∧ dw sink = d
        ∧ registered sink = ∅
        ∧ ∀ dest objs ρ,
            (Notify sink dest objs ρ).1.2.*1 = uniqueGroupVersionKind ρ objs
  end.
Proof.
  destruct NewDynamicWatch as [d|err]; [|done].
  destruct ctrlWatch as [err|]; [done|].
  exists (mkWatchAll d ∅). split_and!; [done..|].
  intros dest objs ρ. unfold Notify.
  destruct (notifyLoop _ _ _ _) as [w' calls] eqn:Hloop. simpl.
  pose proof (uniqueGroupVersionKind_NoDup ρ objs) as Hnd.
  destruct (notifyLoop_spec _ _ _ _ _ _ Hnd Hloop) as (-> & _ & _).
  simpl. clear. induction (uniqueGroupVersionKind ρ objs) as [|k l IH];
    [done|].
  rewrite filter_cons_True by apply not_elem_of_empty. by rewrite IH.
Qed.

(** ** The two application transforms as updates of [spec] *)

Section spec_updates.
Implicit Types (tree spec : gmap string Value).
Implicit Types g : gmap string Value → gmap string Value.

Lemma tryset_spec_field tree value field :
  tryset tree value "spec" [field] = modify_spec (<[field := value]>) tree.
Proof.
  unfold tryset, modify_spec, spec_map. simpl.
  by destruct (tree !! "spec") as [[]|].
Qed.

Lemma tryset_spec_nested tree value field field' :
  tryset tree value "spec" [field; field']
  = modify_spec (λ spec, tryset spec value field [field']) tree.
Proof.
  unfold tryset, modify_spec, spec_map. simpl.
  destruct (tree !! "spec") as [[]|] eqn:Hspec; try done.
  destruct (fields !! field) as [[]|]; try done; by rewrite insert_id.
Qed.

Lemma modify_spec_compose g g' tree :
  modify_spec g' (modify_spec g tree) = modify_spec (g' ∘ g) tree.
Proof.
  unfold modify_spec at 2 3. destruct (spec_map tree) as [spec|] eqn:Hspec.
  - unfold modify_spec, spec_map. rewrite lookup_insert_eq.
    by rewrite insert_insert_eq.
  - unfold modify_spec. by rewrite Hspec.
Qed.

Lemma modify_spec_ext g g' tree :
  (∀ spec, g spec = g' spec) → modify_spec g tree = modify_spec g' tree.
Proof.
  intros Hext. unfold modify_spec. destruct (spec_map tree); [|done].
  by rewrite Hext.
Qed.

(** A write below one field of a map and a write of another field of the
    same map do not disturb each other. *)
Lemma tryset_insert_ne spec value field field' other value' :
  other ≠ field →
  tryset (<[other := value']> spec) value field [field']
  = <[other := value']> (tryset spec value field [field']).
Proof.
  intros Hne. unfold tryset. simpl. rewrite lookup_insert_ne by done.
  destruct (spec !! field) as [[]|]; try done; by rewrite insert_insert_ne.
Qed.

Lemma tryset_again spec value field field' :
  tryset (tryset spec value field [field']) value field [field']
  = tryset spec value field [field'].
Proof.
  unfold tryset. simpl.
  destruct (spec !! field) as [[]|] eqn:Hfield; simpl;
    rewrite ?Hfield, ?lookup_insert_eq; try done;
    by rewrite !insert_insert_eq.
Qed.

Lemma status_fields_again version assemblyPhase spec :
  status_fields version assemblyPhase
    (status_fields version assemblyPhase spec)
  = status_fields version assemblyPhase spec.
Proof.
  unfold status_fields.
  by rewrite tryset_insert_ne, tryset_again, insert_insert_eq.
Qed.

Lemma status_fields_managed_fields version assemblyPhase labels kinds spec :
  status_fields version assemblyPhase (managed_fields labels kinds spec)
  = managed_fields labels kinds (status_fields version assemblyPhase spec).
Proof.
  unfold status_fields, managed_fields.
  rewrite !tryset_insert_ne by done.
  rewrite (insert_insert_ne _ "assemblyPhase" "componentGroupKinds") by done.
  by rewrite (insert_insert_ne _ "assemblyPhase" "selector") by done.
Qed.
End spec_updates.

Section update_application_facts.
Implicit Types g : gmap string Value → gmap string Value.

Lemma with_object_with_object o tree tree' :
  manifest.with_object (manifest.with_object o tree) tree'
  = manifest.with_object o tree'.
Proof. done. Qed.

Lemma update_application_kinds g objects :
  manifest.GroupVersionKind <$> manifest.Items (update_application g objects)
  = manifest.GroupVersionKind <$> manifest.Items objects.
Proof.
  unfold update_application, through.
  destruct (findApplication _ _ _) as [|[i|]]; try done.
  destruct (manifest.Items objects !! i) as [o|] eqn:Hi; [|done].
  simpl. rewrite list_fmap_insert. apply list_insert_id.
  by rewrite list_lookup_fmap, Hi.
Qed.

Lemma update_application_isApplication g objects :
  isApplication <$> manifest.Items (update_application g objects)
  = isApplication <$> manifest.Items objects.
Proof.
  unfold update_application, through.
  destruct (findApplication _ _ _) as [|[i|]]; try done.
  destruct (manifest.Items objects !! i) as [o|] eqn:Hi; [|done].
  simpl. rewrite list_fmap_insert. apply list_insert_id.
  by rewrite list_lookup_fmap, Hi.
Qed.

Lemma update_application_compose g g' objects :
  update_application g' (update_application g objects)
  = update_application (g' ∘ g) objects.
Proof.
  unfold update_application at 1.
  rewrite (findApplication_ext _ (manifest.Items objects))
    by apply update_application_isApplication.
  unfold update_application.
  pose proof (findApplication_empty_handed (manifest.Items objects) 0) as Hfind.
  destruct (findApplication (manifest.Items objects) 0 None) as [|[i|]];
    try done.
  destruct Hfind as (_ & j & o & -> & Hj & _). simpl.
  rewrite (through_through _ _ _ _ _ Hj). rewrite (through_lookup _ _ _ _ Hj).
  simpl. by rewrite modify_spec_compose.
Qed.

Lemma update_application_ext g g' objects :
  (∀ spec, g spec = g' spec) →
  update_application g objects = update_application g' objects.
Proof.
  intros Hext. unfold update_application, through.
  destruct (findApplication _ _ _) as [|[i|]]; try done.
  destruct (manifest.Items objects !! i) as [o|]; [|done].
  simpl. by rewrite (modify_spec_ext g g').
Qed.

(** [transformApplication] is an update of [spec]. *)
Lemma transformApplication_update instance objects labelMaker ρ :
  transformApplication instance objects labelMaker ρ
  = (update_application
       (managed_fields (labelMaker instance)
                       (uniqueGroupVersionKind ρ objects)) objects,
     None).
Proof.
  unfold transformApplication, update_application.
  pose proof (findApplication_empty_handed (manifest.Items objects) 0) as Hfind.
  destruct (findApplication (manifest.Items objects) 0 None) as [|[i|]];
    try done.
  destruct Hfind as (_ & j & o & -> & Hj & _). simpl.
  set (objects1 := through objects j _).
  assert (manifest.GroupVersionKind <$> manifest.Items objects1
          = manifest.GroupVersionKind <$> manifest.Items objects) as Hkinds.
  { subst objects1. rewrite (through_lookup _ _ _ _ Hj). simpl.
    rewrite list_fmap_insert. apply list_insert_id.
    rewrite list_lookup_fmap, Hj. simpl. f_equal. symmetry.
    apply SetNestedField_kinds. }
  rewrite (uniqueGroupVersionKind_ext ρ objects1 objects Hkinds).
  subst objects1. rewrite (through_through _ _ _ _ _ Hj).
  rewrite (through_lookup _ _ _ _ Hj). simpl.
  unfold manifest.SetNestedFieldNoCopy.
  rewrite !object_SetNestedField, with_object_with_object. simpl.
  by rewrite !tryset_spec_field, modify_spec_compose.
Qed.

(** [TransformApplicationFromStatus] is an update of [spec]. *)
Lemma TransformApplicationFromStatus_update instance addonObject objects :
  asCommonObject instance = Some addonObject →
  addon.TransformApplicationFromStatus instance objects
  = (update_application
       (status_fields
          (addonsv1alpha1.Version (addonsv1alpha1.CommonSpec_ addonObject))
          (if addonsv1alpha1.Healthy
                (addonsv1alpha1.GetCommonStatus addonObject)
           then "Succeeded" else "Pending")) objects,
     None).
Proof.
  intros Hcommon.
  unfold addon.TransformApplicationFromStatus, update_application.
  rewrite Hcommon.
  pose proof (findApplication_empty_handed (manifest.Items objects) 0) as Hfind.
  destruct (findApplication (manifest.Items objects) 0 None) as [|[i|]];
    try done.
  destruct Hfind as (_ & j & o & -> & Hj & _). simpl.
  rewrite (through_through _ _ _ _ _ Hj).
  rewrite (through_lookup _ _ _ _ Hj). simpl.
  rewrite !object_SetNestedField, with_object_with_object. simpl.
  by rewrite tryset_spec_field, tryset_spec_nested, modify_spec_compose.
Qed.
End update_application_facts.

Lemma tryset_descriptor_version spec value :
  tryset spec value "descriptor" ["version"]
  = match spec !! "descriptor" with
    | None => <["descriptor" := VMap (<["version" := value]> ∅)]> spec
    | Some (VMap descriptor) =>
        <["descriptor" := VMap (<["version" := value]> descriptor)]> spec
    | Some _ => spec
    end.
Proof.
  unfold tryset. simpl. by destruct (spec !! "descriptor") as [[]|].
Qed.

Lemma update_application_one g objects :
  applications (manifest.Items objects) = 1 →
  ∃ i app,
    manifest.Items objects !! i = Some app
    ∧ isApplication app = true
    ∧ update_application g objects
      = manifest.mkObjects
          (<[i := manifest.with_object app
                    (modify_spec g (manifest.object app))]>
             (manifest.Items objects)).
Proof.
  intros Hone. unfold update_application.
  pose proof (findApplication_empty_handed (manifest.Items objects) 0) as Hfind.
  destruct (findApplication (manifest.Items objects) 0 None) as [|[k|]];
    [lia| |lia].
  destruct Hfind as (_ & j & app & -> & Hj & Happ).
  exists j, app. by rewrite (through_lookup _ _ _ _ Hj).
Qed.

Lemma modify_spec_frame g tree field :
  field ≠ "spec" → modify_spec g tree !! field = tree !! field.
Proof.
  intros Hne. unfold modify_spec. destruct (spec_map tree); [|done].
  by rewrite lookup_insert_ne.
Qed.

Lemma modify_spec_spec g tree :
  match spec_map tree with
  | Some spec => modify_spec g tree !! "spec" = Some (VMap (g spec))
  | None => modify_spec g tree = tree
  end.
Proof.
  unfold modify_spec. destruct (spec_map tree); [|done].
  by rewrite lookup_insert_eq.
Qed.

(** X15.  On an object set with exactly one Application,
    [transformApplication] returns [nil] and changes that object only, and
    of that object only [spec]: if [spec] is absent or a map, the fields
    [selector] and [componentGroupKinds] of [spec] are overwritten, with the
    label selector of the owner's labels and with the unique kinds of the
    whole object set, and every other field of [spec] is kept; if [spec]
    holds anything else, the object is left exactly as it was. *)
Theorem transformApplication_writes_two_fields
    instance objects labelMaker ρ :
  applications (manifest.Items objects) = 1 →
  ∃ i app app',
    manifest.Items objects !! i = Some app
    ∧ isApplication app = true
    ∧ transformApplication instance objects labelMaker ρ
      = (manifest.mkObjects (<[i := app']> (manifest.Items objects)), None)
    ∧ manifest.GroupVersionKind app' = manifest.GroupVersionKind app
    ∧ manifest.Namespace app' = manifest.Namespace app
    ∧ manifest.Name app' = manifest.Name app
    ∧ (∀ field, field ≠ "spec" →
         manifest.object app' !! field = manifest.object app !! field)
    ∧ match spec_map (manifest.object app) with
      | Some spec =>
          manifest.object app' !! "spec"
          = Some (VMap
                    (<["componentGroupKinds" :=
                         VGroupVersionKinds (uniqueGroupVersionKind ρ objects)]>
                       (<["selector" := VLabelSelector (labelMaker instance)]>
                          spec)))
      | None => app' = app
      end.
Proof.
  intros Hone. rewrite transformApplication_update.
  destruct (update_application_one
              (managed_fields (labelMaker instance)
                              (uniqueGroupVersionKind ρ objects))
              objects Hone) as (i & app & Hi & Happ & ->).
  eexists i, app, _. split_and!; [done|done|reflexivity|done|done|done| |].
  - intros field Hfield. by apply modify_spec_frame.
  - pose proof (modify_spec_spec
                  (managed_fields (labelMaker instance)
                                  (uniqueGroupVersionKind ρ objects))
                  (manifest.object app)) as Hspec.
    simpl. destruct (spec_map (manifest.object app)); [done|].
    rewrite Hspec. by destruct app.
Qed.

Lemma transformApplication_writes_two_fields_witness :
  ∃ i app app',
    manifest.Items
      (manifest.mkObjects [sample.application_scalar_spec; sample.service])
    !! i = Some app
    ∧ isApplication app = true
    ∧ transformApplication sample.healthy
        (manifest.mkObjects [sample.application_scalar_spec; sample.service])
        sample.labels []
      = (manifest.mkObjects
           (<[i := app']> [sample.application_scalar_spec; sample.service]),
         None)
    ∧ manifest.GroupVersionKind app' = manifest.GroupVersionKind app
    ∧ manifest.Namespace app' = manifest.Namespace app
    ∧ manifest.Name app' = manifest.Name app
    ∧ (∀ field, field ≠ "spec" →
         manifest.object app' !! field = manifest.object app !! field)
    ∧ match spec_map (manifest.object app) with
      | Some spec =>
          manifest.object app' !! "spec"
          = Some (VMap
                    (<["componentGroupKinds" :=
                         VGroupVersionKinds
                           (uniqueGroupVersionKind []
                              (manifest.mkObjects
                                 [sample.application_scalar_spec;
                                  sample.service]))]>
                       (<["selector" :=
                            VLabelSelector (sample.labels sample.healthy)]>
                          spec)))
      | None => app' = app
      end.
Proof.
  apply (transformApplication_writes_two_fields sample.healthy
           (manifest.mkObjects [sample.application_scalar_spec; sample.service])
           sample.labels []).
  vm_compute. reflexivity.
Defined.

(** X17.  [TransformApplicationFromStatus] applied to its own result changes
    nothing more and returns what it returned before, for every owner and
    every object set. *)
Theorem TransformApplicationFromStatus_again instance objects :
  addon.TransformApplicationFromStatus instance
    (addon.TransformApplicationFromStatus instance objects).1
  = addon.TransformApplicationFromStatus instance objects.
Proof.
  destruct (asCommonObject instance) as [addonObject|] eqn:Hcommon.
  - rewrite !(TransformApplicationFromStatus_update _ _ _ Hcommon). simpl.
    rewrite update_application_compose. f_equal.
    apply update_application_ext. intros spec. apply status_fields_again.
  - unfold addon.TransformApplicationFromStatus. by rewrite Hcommon.
Qed.

(** X18.  On an object set with exactly one Application and for an owner
    that implements [CommonObject], [TransformApplicationFromStatus] returns
    [nil] and changes that object only, and of that object only [spec].  If
    [spec] is absent or a map, [assemblyPhase] is written into it, and
    [version] into [spec.descriptor] when that is absent or a map, every
    other field of either being kept; when [spec.descriptor] holds anything
    else the version is not written and [spec.descriptor] stays as it is,
    but [assemblyPhase] is written all the same.  If [spec] holds anything
    but a map, the object is left exactly as it was. *)
Theorem TransformApplicationFromStatus_writes_two_fields
    instance addonObject objects :
  asCommonObject instance = Some addonObject →
  applications (manifest.Items objects) = 1 →
  let version :=
    VString (addonsv1alpha1.Version (addonsv1alpha1.CommonSpec_ addonObject)) in
  let assemblyPhase :=
    VString (if addonsv1alpha1.Healthy
                  (addonsv1alpha1.GetCommonStatus addonObject)
             then "Succeeded" else "Pending") in
  ∃ i app app',
    manifest.Items objects !! i = Some app
    ∧ isApplication app = true
    ∧ addon.TransformApplicationFromStatus instance objects
      = (manifest.mkObjects (<[i := app']> (manifest.Items objects)), None)
    ∧ manifest.GroupVersionKind app' = manifest.GroupVersionKind app
    ∧ manifest.Namespace app' = manifest.Namespace app
    ∧ manifest.Name app' = manifest.Name app
    ∧ (∀ field, field ≠ "spec" →
         manifest.object app' !! field = manifest.object app !! field)
    ∧ match spec_map (manifest.object app) with
      | Some spec =>
          manifest.object app' !! "spec"
          = Some (VMap
                    (<["assemblyPhase" := assemblyPhase]>
                       match spec !! "descriptor" with
                       | None =>
                           <["descriptor" :=
                               VMap (<["version" := version]> ∅)]> spec
                       | Some (VMap descriptor) =>
                           <["descriptor" :=
                               VMap (<["version" := version]> descriptor)]>
                             spec
                       | Some _ => spec
                       end))
      | None => app' = app
      end.
Proof.
  intros Hcommon Hone version assemblyPhase.
  rewrite (TransformApplicationFromStatus_update _ _ _ Hcommon).
  match goal with
  | |- context [update_application ?g objects] =>
      destruct (update_application_one g objects Hone)
        as (i & app & Hi & Happ & ->);
      pose proof (modify_spec_spec g (manifest.object app)) as Hspec
  end.
  eexists i, app, _. split_and!; [done|done|reflexivity|done|done|done| |].
  - intros field Hfield. by apply modify_spec_frame.
  - simpl. destruct (spec_map (manifest.object app)) as [spec|].
    + rewrite Hspec. unfold status_fields.
      by rewrite tryset_descriptor_version.
    + rewrite Hspec. by destruct app.
Qed.

Lemma TransformApplicationFromStatus_writes_two_fields_witness :
  ∃ i app app',
    manifest.Items
      (manifest.mkObjects
         [sample.object "app.k8s.io" "v1beta1" "Application" "dashboard"
            {["spec" := VMap {["descriptor" := VString "none"]}]}])
    !! i = Some app
    ∧ isApplication app = true
    ∧ addon.TransformApplicationFromStatus sample.healthy
        (manifest.mkObjects
           [sample.object "app.k8s.io" "v1beta1" "Application" "dashboard"
              {["spec" := VMap {["descriptor" := VString "none"]}]}])
      = (manifest.mkObjects
           (<[i := app']>
              [sample.object "app.k8s.io" "v1beta1" "Application" "dashboard"
                 {["spec" := VMap {["descriptor" := VString "none"]}]}]),
         None)
    ∧ manifest.GroupVersionKind app' = manifest.GroupVersionKind app
    ∧ manifest.Namespace app' = manifest.Namespace app
    ∧ manifest.Name app' = manifest.Name app
    ∧ (∀ field, field ≠ "spec" →
         manifest.object app' !! field = manifest.object app !! field)
    ∧ match spec_map (manifest.object app) with
      | Some spec =>
          manifest.object app' !! "spec"
          = Some (VMap
                    (<["assemblyPhase" := VString "Succeeded"]>
                       match spec !! "descriptor" with
                       | None =>
                           <["descriptor" :=
                               VMap (<["version" := VString "1.8.3"]> ∅)]>
                             spec
                       | Some (VMap descriptor) =>
                           <["descriptor" :=
                               VMap (<["version" := VString "1.8.3"]>
                                       descriptor)]>
                             spec
                       | Some _ => spec
                       end))
      | None => app' = app
      end.
Proof.
  apply (TransformApplicationFromStatus_writes_two_fields sample.healthy
           (addonsv1alpha1.mkCommon (addonsv1alpha1.mkSpec "1.8.3")
                                    (addonsv1alpha1.mkStatus true))
           (manifest.mkObjects
              [sample.object "app.k8s.io" "v1beta1" "Application" "dashboard"
                 {["spec" := VMap {["descriptor" := VString "none"]}]}])).
  - reflexivity.
  - vm_compute. reflexivity.
Defined.

(** X19.  The two application transforms do not disturb each other: for
    every owner, object set and order of [range],
    [TransformApplicationFromStatus] after [transformApplication] leaves the
    same object set as [transformApplication] after
    [TransformApplicationFromStatus], and returns the same error as on the
    object set it started from. *)
Theorem application_transforms_commute instance objects labelMaker ρ :
  (addon.TransformApplicationFromStatus instance
     (transformApplication instance objects labelMaker ρ).1).1
  = (transformApplication instance
       (addon.TransformApplicationFromStatus instance objects).1
       labelMaker ρ).1
  ∧ (addon.TransformApplicationFromStatus instance
       (transformApplication instance objects labelMaker ρ).1).2
    = (addon.TransformApplicationFromStatus instance objects).2.
Proof.
  destruct (asCommonObject instance) as [addonObject|] eqn:Hcommon.
  - rewrite !(TransformApplicationFromStatus_update _ _ _ Hcommon).
    rewrite !transformApplication_update. simpl. split; [|done].
    rewrite !update_application_compose.
    rewrite (uniqueGroupVersionKind_ext ρ (update_application _ objects)
               objects) by apply update_application_kinds.
    apply update_application_ext. intros spec.
    apply status_fields_managed_fields.
  - unfold addon.TransformApplicationFromStatus. by rewrite Hcommon.
Qed.

(** ** Reconciler options *)

Section options_facts.
Context {ManifestController Sink Status : Type}.
Implicit Types
  (p : @options.reconcilerParams ManifestController Sink Status)
  (calls : list (@options.Call ManifestController Status)).

Lemma options_apply_snoc calls c p :
  options.apply (calls ++ [c]) p
  = options.option_of c (options.apply calls p).
Proof. unfold options.apply. by rewrite foldl_app. Qed.


(** X21.  No option switches pruning or namespace preservation off again:
    after any sequence of options each flag is set exactly if it was set
    before or the sequence contains its option.  The group/version/kind is
    the one of the last [WithGroupVersionKind] of the sequence, an earlier
    one being overwritten without notice, and the one from before if there
    is none. *)
Theorem options_flags_and_kind calls p :
  options.prune (options.apply calls p)
  = options.prune p || existsb options.is_prune calls
  ∧ options.preserveNamespace (options.apply calls p)
    = options.preserveNamespace p || existsb options.is_preserveNamespace calls
  ∧ options.groupVersionKind (options.apply calls p)
    = match last (omap options.kind_of calls) with
      | Some gvk => Some gvk
      | None => options.groupVersionKind p
      end.
Proof.
  induction calls as [|c calls (IHp & IHn & IHk)] using rev_ind.
  { simpl. by rewrite !orb_false_r. }
  rewrite options_apply_snoc, !existsb_app, omap_app. simpl.
  rewrite !orb_false_r, !orb_assoc, <-IHp, <-IHn.
  destruct c; simpl; rewrite ?orb_false_r, ?orb_true_r, ?app_nil_r;
    try done.
  by rewrite last_snoc.
Qed.
End options_facts.
